(** * Hyperlane warp bridge: token routes and token adapters

    A shallow embedding of
    - [src/features/tokens/routes.ts] (metadata validation, the route graph
      builder and the route queries),
    - [src/features/tokens/adapters/EvmTokenContractAdapter.ts] (the EVM
      adapter class hierarchy), and
    - [src/features/tokens/CosmNativeTokenAdapter.ts] (the Cosmos IBC adapter),
    together with the properties the specification states about them.

    JavaScript objects used as dictionaries are finite maps, arrays are
    lists, [throw] and promise rejection are the [Throw] outcome of a small
    error monad. *)

From Stdlib Require Import ZArith.
From stdpp Require Import gmap strings list fin_maps pretty.

(** ** Outcomes of JavaScript computations *)

(** The exceptions the modelled code can raise: [new Error(msg)], which is the
    only exception the sources construct themselves, and the [TypeError] the
    runtime raises when a property of [undefined] is read. *)
Inductive JsError : Type :=
  | Error (message : string)
  | TypeError (message : string).

(** A computation either returns a value or throws. For an [async] function
    [Ok] is the fulfilled promise and [Throw] the rejected one. *)
Inductive Result (A : Type) : Type :=
  | Ok (value : A)
  | Throw (error : JsError).
Arguments Ok {A} value.
Arguments Throw {A} error.

(** Sequencing: the continuation runs on the value, an exception skips it.
    The instances give [Result] the [x ← c; k] and [c ;; k] notations. *)
#[global] Instance Result_bind : MBind Result := fun A B k c =>
  match c with
  | Ok a => k a
  | Throw e => Throw e
  end.
#[global] Instance Result_ret : MRet Result := fun A a => Ok a.

(** [for (const x of xs) body], threading the loop state and stopping at the
    first exception. *)
Fixpoint forOf {A S : Type} (xs : list A) (body : A → S → Result S) (s : S)
  : Result S :=
  match xs with
  | [] => Ok s
  | x :: xs' => s' ← body x s; forOf xs' body s'
  end.

(** [Promise.all(xs.map(f))]: the results in the order of [xs] when every
    promise fulfils, a rejection otherwise. When several promises reject,
    [Promise.all] reports the one that rejects first in time; the model
    reports the first in array order. *)
Fixpoint promiseAll {A B : Type} (f : A → Result B) (xs : list A)
  : Result (list B) :=
  match xs with
  | [] => Ok []
  | x :: xs' => y ← f x; ys ← promiseAll f xs'; Ok (y :: ys)
  end.

(** ** Data model of [routes.ts] *)

Abbreviation Address := string (only parsing).
Abbreviation Caip2Id := string (only parsing).
Abbreviation DomainId := Z (only parsing).

Inductive RouteType : Type :=
  | BaseToSynthetic
  | SyntheticToSynthetic
  | SyntheticToBase.

#[global] Instance RouteType_eq_dec : EqDecision RouteType.
Proof. solve_decision. Defined.

Record Route : Type := mkRoute {
  type : RouteType;
  baseCaip2Id : Caip2Id;
  baseTokenAddress : Address;
  tokenRouterAddress : Address;
  originTokenAddress : Address;
  destTokenAddress : Address;
  decimals : Z;
}.

#[global] Instance Route_eq_dec : EqDecision Route.
Proof. solve_decision. Defined.

(** Origin chain to destination chain to routes. The keys are CAIP-2 ids
    ([namespace:reference]); none is a property name of [Object.prototype],
    so reading a key that was never assigned gives [undefined]. *)
Abbreviation RoutesMap := (gmap string (gmap string (list Route))) (only parsing).

(** [TokenType] of the token package; [validateTokenMetadata] only tells
    [collateral] from the rest. *)
Inductive TokenType : Type :=
  | synthetic
  | syntheticUri
  | collateral
  | collateralUri
  | native.

(** Modelled from the spec: the [ProtocolType] enum of [features/chains/types],
    which the spec lists as Ethereum-family EVM, Cosmos, CosmWasm and
    Sealevel. *)
Inductive ProtocolType : Type :=
  | Ethereum
  | Sealevel
  | Cosmos
  | CosmWasm.

#[global] Instance TokenType_eq_dec : EqDecision TokenType.
Proof. solve_decision. Defined.
#[global] Instance ProtocolType_eq_dec : EqDecision ProtocolType.
Proof. solve_decision. Defined.

(** An entry of [hypTokens]: a remote router and the chain it lives on. *)
Record HypToken : Type := mkHypToken {
  hyp_address : Address;
  hyp_caip2Id : Caip2Id;
}.

(** [TokenMetadataWithHypTokens]: the fields the route code reads. [protocol]
    is optional in the source and is [None] when the configuration omits it. *)
Record TokenMetadata : Type := mkToken {
  tok_type : TokenType;
  tok_caip2Id : Caip2Id;
  tok_address : Address;
  tok_tokenRouterAddress : Address;
  tok_symbol : string;
  tok_decimals : Z;
  tok_protocol : option ProtocolType;
  hypTokens : list HypToken;
}.

(** ** The route graph builder *)

(** [chains.add(c)] on a [Set]: insertion order is kept, a value already
    present is not added again. *)
Definition setAdd (c : Caip2Id) (chains : list Caip2Id) : list Caip2Id :=
  if bool_decide (c ∈ chains) then chains else chains ++ [c].

Definition getChainsFromTokens (tokens : list TokenMetadata) : list Caip2Id :=
  foldl (fun chains token =>
           foldl (fun chains hypToken => setAdd (hyp_caip2Id hypToken) chains)
                 (setAdd (tok_caip2Id token) chains)
                 (hypTokens token))
        [] tokens.

(** The inner loop of the map initialisation: [tokenRoutes[origin][dest] = []]
    for every [dest] other than [origin]. *)
Definition emptyDestinations (origin : Caip2Id) (allChainIds : list Caip2Id)
  : gmap string (list Route) :=
  foldl (fun inner dest =>
           if bool_decide (origin = dest) then inner else <[dest := []]> inner)
        ∅ allChainIds.

Definition instantiateMap (allChainIds : list Caip2Id) : RoutesMap :=
  foldl (fun tokenRoutes origin =>
           <[origin := emptyDestinations origin allChainIds]> tokenRoutes)
        ∅ allChainIds.

(** [tokenRoutes[origin][dest].push(route)]. Reading [tokenRoutes[origin]] or
    [tokenRoutes[origin][dest]] gives [undefined] for a key that was never
    assigned, and the next property access on it raises a [TypeError]. *)
Definition push (origin dest : Caip2Id) (route : Route) (tokenRoutes : RoutesMap)
  : Result RoutesMap :=
  match tokenRoutes !! origin with
  | None => Throw (TypeError "Cannot read properties of undefined")
  | Some inner =>
      match inner !! dest with
      | None => Throw (TypeError "Cannot read properties of undefined (reading 'push')")
      | Some routes => Ok (<[origin := <[dest := routes ++ [route]]> inner]> tokenRoutes)
      end
  end.

Definition computeTokenRoutes (tokens : list TokenMetadata) : Result RoutesMap :=
  let allChainIds := getChainsFromTokens tokens in
  forOf tokens (fun token =>
    forOf (hypTokens token) (fun hypToken tokenRoutes =>
      let baseCaip2Id := tok_caip2Id token in
      let baseTokenAddress := tok_address token in
      let tokenRouterAddress := tok_tokenRouterAddress token in
      let decimals := tok_decimals token in
      let syntheticCaip2Id := hyp_caip2Id hypToken in
      let hypTokenAddress := hyp_address hypToken in
      let commonRouteProps ty o d :=
        mkRoute ty baseCaip2Id baseTokenAddress tokenRouterAddress o d decimals in
      tokenRoutes ← push baseCaip2Id syntheticCaip2Id
        (commonRouteProps BaseToSynthetic tokenRouterAddress hypTokenAddress)
        tokenRoutes;
      tokenRoutes ← push syntheticCaip2Id baseCaip2Id
        (commonRouteProps SyntheticToBase hypTokenAddress tokenRouterAddress)
        tokenRoutes;
      forOf (hypTokens token) (fun otherHypToken tokenRoutes =>
        if bool_decide (hyp_caip2Id otherHypToken = syntheticCaip2Id)
        then Ok tokenRoutes
        else
          let otherSynCaip2Id := hyp_caip2Id otherHypToken in
          let otherHypTokenAddress := hyp_address otherHypToken in
          tokenRoutes ← push syntheticCaip2Id otherSynCaip2Id
            (commonRouteProps SyntheticToSynthetic hypTokenAddress otherHypTokenAddress)
            tokenRoutes;
          push otherSynCaip2Id syntheticCaip2Id
            (commonRouteProps SyntheticToSynthetic otherHypTokenAddress hypTokenAddress)
            tokenRoutes)
        tokenRoutes))
    (instantiateMap allChainIds).

(** ** The route queries *)

(** [tokenRoutes[origin]?.[destination] || []]: optional chaining turns a
    missing origin into [undefined], and [||] replaces [undefined] by the
    empty array (a stored array, empty or not, is truthy and is returned). *)
Definition getTokenRoutes (originCaip2Id destinationCaip2Id : Caip2Id)
    (tokenRoutes : RoutesMap) : list Route :=
  match tokenRoutes !! originCaip2Id ≫= (fun inner => inner !! destinationCaip2Id) with
  | Some routes => routes
  | None => []
  end.

Section RouteLookup.
(** [isValidEvmAddress] and [areAddressesEqual] come from [utils/addresses],
    which is outside the modelled sources; the queries are parametric in
    them. *)
Variable isValidEvmAddress : Address → bool.
Variable areAddressesEqual : Address → Address → bool.

(** [Array.prototype.find] returns the first element satisfying the
    predicate or [undefined]; [|| null] maps [undefined] to [null]. Both
    are [None] here. *)
Definition getTokenRoute (originCaip2Id destinationCaip2Id : Caip2Id)
    (baseAddress : Address) (tokenRoutes : RoutesMap) : option Route :=
  if negb (isValidEvmAddress baseAddress) then None
  else
    List.find (fun r => areAddressesEqual baseAddress (baseTokenAddress r))
              (getTokenRoutes originCaip2Id destinationCaip2Id tokenRoutes).

Definition hasTokenRoute (originCaip2Id destinationCaip2Id : Caip2Id)
    (baseAddress : Address) (tokenRoutes : RoutesMap) : bool :=
  bool_decide (is_Some
    (getTokenRoute originCaip2Id destinationCaip2Id baseAddress tokenRoutes)).
End RouteLookup.


(** ** EVM token adapters ([EvmTokenContractAdapter.ts]) *)

(** An amount or token id, [string | number] in the source. The numbers of
    the model are the safe integers (magnitude at most 2^53 - 1), which
    JavaScript renders by their decimal digits; it renders larger numbers by
    their shortest round-trip digits, in exponent notation from 10^21 on,
    which [amountToString] does not reproduce. *)
Inductive AmountOrId : Type :=
  | AmountString (s : string)
  | AmountNumber (n : Z).

(** [amountOrId.toString()]: a string is itself, an integral number is
    rendered in decimal. *)
Definition amountToString (a : AmountOrId) : string :=
  match a with
  | AmountString s => s
  | AmountNumber n => pretty n
  end.

(** The fields of an ethers [PopulatedTransaction] the adapters set. *)
Record PopulatedTransaction : Type := mkTx {
  tx_to : option Address;
  tx_value : option Z;
  tx_data : option string;
}.

Record Metadata : Type := mkMetadata {
  md_decimals : Z;
  md_symbol : string;
  md_name : string;
}.

(** The ethers [Signer | Provider] handle: what the adapters ask of it. *)
Record SignerOrProvider : Type := mkSignerOrProvider {
  sp_getBalance : Address → Result Z;
  sp_isSigner : bool;
  sp_getAddress : Result Address;
}.

(** A contract handle ([ERC20Upgradeable], [HypERC20], [HypERC20Collateral]):
    each field is the outcome of the on-chain read or of populating the
    transaction. A method the deployed contract does not have is a field that
    throws. *)
Record Contract : Type := mkContract {
  c_balanceOf : Address → Result Z;
  c_decimals : Result Z;
  c_symbol : Result string;
  c_name : Result string;
  c_approve : Address → AmountOrId → Result PopulatedTransaction;
  c_transfer : Address → AmountOrId → Result PopulatedTransaction;
  c_wrappedToken : Result Address;
  c_domains : Result (list DomainId);
  c_routers : DomainId → Result string;
  c_quoteGasPayment : DomainId → Result Z;
  c_transferRemote : DomainId → Address → AmountOrId → Result PopulatedTransaction;
}.

(** [ITokenAdapter]: the operations every token adapter exposes. *)
Record ITokenAdapter : Type := mkITokenAdapter {
  getBalance : option Address → Result string;
  getMetadata : Result Metadata;
  prepareApproveTx : Address → AmountOrId → Result PopulatedTransaction;
  prepareTransferTx : Address → AmountOrId → Result PopulatedTransaction;
}.

(** An element of the array [getAllRouters] returns. [address] is
    [routers[i]], which JavaScript evaluates to [undefined] ([None]) when [i]
    is past the end of [routers]. *)
Record RouterEntry : Type := mkRouterEntry {
  domain : DomainId;
  address : option Address;
}.

(** [IHypTokenAdapter extends ITokenAdapter]. *)
Record IHypTokenAdapter : Type := mkIHypTokenAdapter {
  asTokenAdapter :> ITokenAdapter;
  getDomains : Result (list DomainId);
  getRouterAddress : DomainId → Result Address;
  getAllRouters : Result (list RouterEntry);
  quoteGasPayment : DomainId → Result string;
  prepareTransferRemoteTx :
    DomainId → Address → AmountOrId → Result PopulatedTransaction;
}.

(** JavaScript truthiness of a [string | undefined]: [undefined] and the
    empty string are falsy. *)
Definition truthy (s : option string) : bool :=
  match s with
  | Some s => negb (String.eqb s "")
  | None => false
  end.

Section EvmAdapters.
(** From ethers, [utils/addresses], [@hyperlane-xyz/utils] and
    [contracts/evmContracts], none of which is part of the modelled
    sources. *)
Variable bigNumberFrom : AmountOrId → Result Z.
Variable getErc20Contract : Address → SignerOrProvider → Contract.
Variable getHypErc20CollateralContract : Address → SignerOrProvider → Contract.
Variable bytes32ToAddress : string → Result Address.
Variable normalizeEvmAddress : Address → Result Address.

Definition resolveAddress (signerOrProvider : SignerOrProvider)
    (address : option Address) : Result Address :=
  if truthy address then Ok (default ""%string address)
  else if sp_isSigner signerOrProvider then sp_getAddress signerOrProvider
  else Throw (Error "No address provided").

(** [class EvmNativeTokenAdapter implements ITokenAdapter] *)
Definition EvmNativeTokenAdapter (signerOrProvider : SignerOrProvider)
  : ITokenAdapter :=
  {| getBalance address :=
       balanceAddress ← resolveAddress signerOrProvider address;
       balance ← sp_getBalance signerOrProvider balanceAddress;
       Ok (pretty balance);
     getMetadata := Throw (Error "Metadata not available to native tokens");
     prepareApproveTx _recipient _amountOrId :=
       Throw (Error "Approve not required for native tokens");
     prepareTransferTx recipient amountOrId :=
       value ← bigNumberFrom amountOrId;
       Ok {| tx_to := Some recipient; tx_value := Some value; tx_data := None |} |}.

(** [class EvmTokenAdapter extends EvmNativeTokenAdapter]: all four
    operations are overridden with calls on the contract. The three reads
    of [getMetadata] run under [Promise.all]; which rejection surfaces when
    several reject depends on timing, and the model takes the first in
    array order. *)
Definition EvmTokenAdapter (signerOrProvider : SignerOrProvider)
    (contractAddress : Address)
    (contractFactory : Address → SignerOrProvider → Contract) : ITokenAdapter :=
  let contract := contractFactory contractAddress signerOrProvider in
  {| getBalance address :=
       balanceAddress ← resolveAddress signerOrProvider address;
       balance ← c_balanceOf contract balanceAddress;
       Ok (pretty balance);
     getMetadata :=
       decimals ← c_decimals contract;
       symbol ← c_symbol contract;
       name ← c_name contract;
       Ok {| md_decimals := decimals; md_symbol := symbol; md_name := name |};
     prepareApproveTx recipient amountOrId :=
       tx ← c_approve contract recipient amountOrId; Ok tx;
     prepareTransferTx recipient amountOrId :=
       tx ← c_transfer contract recipient amountOrId; Ok tx |}.

(** [class EvmHypTokenAdapter extends EvmTokenAdapter implements
    IHypTokenAdapter]. [getAllRouters] reaches [getDomains] and
    [getRouterAddress] through [this]; no subclass in the sources overrides
    either, so the calls are bound here. *)
Definition EvmHypTokenAdapter (signerOrProvider : SignerOrProvider)
    (contractAddress : Address)
    (contractFactory : Address → SignerOrProvider → Contract) : IHypTokenAdapter :=
  let contract := contractFactory contractAddress signerOrProvider in
  let getDomains := c_domains contract in
  let getRouterAddress (domain : DomainId) :=
    routerAddressesAsBytes32 ← c_routers contract domain;
    addr ← bytes32ToAddress routerAddressesAsBytes32;
    normalizeEvmAddress addr in
  {| asTokenAdapter := EvmTokenAdapter signerOrProvider contractAddress contractFactory;
     getDomains := getDomains;
     getRouterAddress := getRouterAddress;
     getAllRouters :=
       domains ← getDomains;
       routers ← promiseAll getRouterAddress domains;
       Ok (imap (fun i d => {| domain := d; address := routers !! i |}) domains);
     quoteGasPayment destination :=
       gasPayment ← c_quoteGasPayment contract destination;
       Ok (pretty gasPayment);
     prepareTransferRemoteTx destination recipient amountOrId :=
       tx ← c_transferRemote contract destination recipient amountOrId; Ok tx |}.

(** [class EvmHypTokenCollateralAdapter extends EvmHypTokenAdapter]: the
    router operations are inherited, the three token operations are
    overridden by refusals. *)
Definition EvmHypTokenCollateralAdapter (signerOrProvider : SignerOrProvider)
    (contractAddress : Address) : IHypTokenAdapter :=
  let super :=
    EvmHypTokenAdapter signerOrProvider contractAddress getHypErc20CollateralContract in
  {| asTokenAdapter :=
       {| getBalance := getBalance super;
          getMetadata :=
            Throw (Error "Metadata not available for HypCollateral/HypNative contract.");
          prepareApproveTx _recipient _amountOrId :=
            Throw (Error "Approve not applicable to HypCollateral/HypNative contract.");
          prepareTransferTx _recipient _amountOrId :=
            Throw (Error "Local transfer not supported for HypCollateral/HypNative contract.") |};
     getDomains := getDomains super;
     getRouterAddress := getRouterAddress super;
     getAllRouters := getAllRouters super;
     quoteGasPayment := quoteGasPayment super;
     prepareTransferRemoteTx := prepareTransferRemoteTx super |}.

(** The adapters of this file that implement [IHypTokenAdapter]. *)
Inductive routerCapable : IHypTokenAdapter → Prop :=
  | routerCapable_hyp sp a f : routerCapable (EvmHypTokenAdapter sp a f)
  | routerCapable_collateral sp a : routerCapable (EvmHypTokenCollateralAdapter sp a).

(** ** Metadata validation ([routes.ts]) *)

Variable getProvider : Caip2Id → SignerOrProvider.

(** The comparison at the end of [validateTokenMetadata];
    [tokenAdapter] is [None] when the variable was never assigned, and
    calling a method on it raises a [TypeError]. *)
Definition checkMetadata (token : TokenMetadata) (tokenAdapter : option ITokenAdapter)
  : Result unit :=
  match tokenAdapter with
  | None => Throw (TypeError "Cannot read properties of undefined (reading 'getMetadata')")
  | Some adapter =>
      onChain ← getMetadata adapter;
      if bool_decide (tok_decimals token ≠ md_decimals onChain) then
        Throw (Error ("Token config decimals " +:+ pretty (tok_decimals token)
                      +:+ " does not match contract decimals "
                      +:+ pretty (md_decimals onChain)))
      else if bool_decide (tok_symbol token ≠ md_symbol onChain) then
        Throw (Error ("Token config symbol " +:+ tok_symbol token
                      +:+ " does not match contract decimals "
                      +:+ md_symbol onChain))
      else Ok tt
  end.

(** The adapter [validateTokenMetadata] builds for an Ethereum token: an
    [EvmTokenAdapter] on the token wrapped by the collateral router.
    [routes.ts] imports the class from [adapters/EvmTokenAdapter]; the class
    of that name among the sources is the one above. *)
Definition wrappedTokenAdapter (token : TokenMetadata) : Result ITokenAdapter :=
  let provider := getProvider (tok_caip2Id token) in
  let collateralContract :=
    getHypErc20CollateralContract (tok_tokenRouterAddress token) provider in
  wrappedTokenAddr ← c_wrappedToken collateralContract;
  Ok (EvmTokenAdapter provider wrappedTokenAddr getErc20Contract).

Definition validateTokenMetadata (token : TokenMetadata) : Result unit :=
  let protocol := default Ethereum (tok_protocol token) in
  if bool_decide (tok_type token ≠ collateral) then Ok tt
  else
    match protocol with
    | Ethereum =>
        tokenAdapter ← wrappedTokenAdapter token;
        checkMetadata token (Some tokenAdapter)
    | Sealevel => Ok tt
    | _ => checkMetadata token None
    end.
End EvmAdapters.

(** ** The Cosmos IBC adapter ([CosmNativeTokenAdapter.ts]) *)

Definition COSMOS_IBC_TRANSFER_TIMEOUT : Z := 60000.

(** [Long] of the [long] package: a 64-bit two's complement integer, here the
    integer of its value. [fromNumber] saturates, [multiply] wraps. *)
Definition Long_fromNumber (value : Z) : Z :=
  if (value <=? - 2 ^ 63)%Z then (- 2 ^ 63)%Z
  else if (2 ^ 63 <=? value + 1)%Z then (2 ^ 63 - 1)%Z
  else value.

Definition Long_wrap (z : Z) : Z := ((z + 2 ^ 63) mod 2 ^ 64 - 2 ^ 63)%Z.

Definition Long_multiply (this multiplier : Z) : Z :=
  Long_wrap (this * Long_fromNumber multiplier).

(** The properties object handed to the constructor; a property the
    configuration leaves out is [None]. *)
Record CosmProperties : Type := mkCosmProperties {
  ibcDenom : option string;
  sourcePort : option string;
  sourceChannel : option string;
}.

Record TransferParams : Type := mkTransferParams {
  weiAmountOrId : AmountOrId;
  recipient : Address;
  fromAccountOwner : option Address;
}.

Record Coin : Type := mkCoin {
  denom : option string;
  amount : string;
}.

Record MsgTransfer : Type := mkMsgTransfer {
  msg_sourcePort : option string;
  msg_sourceChannel : option string;
  msg_token : Coin;
  msg_sender : Address;
  msg_receiver : Address;
  timeoutTimestamp : Z;
  msg_memo : string;
}.

Record MsgTransferEncodeObject : Type := mkEncodeObject {
  typeUrl : string;
  value : MsgTransfer;
}.

(** The state of a [CosmNativeTokenAdapter] instance. The multi-provider
    handle plays no part in transfer construction and is left out. *)
Record CosmNativeTokenAdapter : Type := mkCosmNativeTokenAdapter {
  chainName : string;
  addresses : gmap string string;
  properties : CosmProperties;
}.

(** [new CosmNativeTokenAdapter(chainName, multiProvider, addresses, properties)] *)
Definition newCosmNativeTokenAdapter (chainName : string)
    (addresses : gmap string string) (properties : CosmProperties)
  : Result CosmNativeTokenAdapter :=
  if negb (truthy (ibcDenom properties))
     || negb (truthy (sourcePort properties))
     || negb (truthy (sourceChannel properties))
  then Throw (Error "Missing properties for CosmNativeTokenAdapter")
  else Ok {| chainName := chainName; addresses := addresses; properties := properties |}.

(** [populateTransferTx(transferParams, memo = '')]. [now] is the value of
    [new Date().getTime()] when the method body evaluates it: milliseconds
    since the epoch on the clock at the time of the call. *)
Definition populateTransferTx (now : Z) (this : CosmNativeTokenAdapter)
    (transferParams : TransferParams) (memo : option string)
  : Result MsgTransferEncodeObject :=
  if negb (truthy (fromAccountOwner transferParams)) then
    Throw (Error "fromAccountOwner is required for ibc transfers")
  else
    Ok {| typeUrl := "/ibc.applications.transfer.v1.MsgTransfer";
          value :=
            {| msg_sourcePort := sourcePort (properties this);
               msg_sourceChannel := sourceChannel (properties this);
               msg_token :=
                 {| denom := ibcDenom (properties this);
                    amount := amountToString (weiAmountOrId transferParams) |};
               msg_sender := default ""%string (fromAccountOwner transferParams);
               msg_receiver := recipient transferParams;
               timeoutTimestamp :=
                 Long_multiply (Long_fromNumber (now + COSMOS_IBC_TRANSFER_TIMEOUT)) 1000000;
               msg_memo := default ""%string memo |} |}.

(** [class CosmNativeToHypTokenAdapter extends CosmNativeTokenAdapter]: the
    composite adapter whose transfer is an IBC transfer to the intermediate
    router carrying a contract call in its memo. *)
Section CosmNativeToHyp.
(** The execute instruction the SDK's [CwHypCollateralAdapter] returns, and
    the types of its message and funds, all outside the modelled sources. *)
Variable Msg Funds : Type.

Record ExecuteInstruction : Type := mkExecuteInstruction {
  contractAddress : Address;
  msg : Msg;
  funds : Funds;
}.

Record CosmNativeToHypTokenAdapter : Type := mkCosmNativeToHypTokenAdapter {
  super : CosmNativeTokenAdapter;
  intermediateRouterAddress : Address;
  destinationRouterAddress : Address;
  derivedIbcDenom : string;
  intermediateChainName : string;
  destinationDomainId : DomainId;
}.

(** [cwAdapter.populateTransferRemoteTx({...transferParams, destination,
    txValue})] on a [CwHypCollateralAdapter] for the given chain, token
    denom, warp router and gas denom. *)
Variable populateTransferRemoteTx :
  string → string → Address → option string →
  TransferParams → DomainId → string → Result ExecuteInstruction.

(** [JSON.stringify({ wasm: { contract, msg, funds } })] *)
Variable stringifyWasmMemo : Address → Msg → Funds → string.

Definition newCosmNativeToHypTokenAdapter (chainName : string)
    (intermediateRouterAddress destinationRouterAddress : Address)
    (properties : CosmProperties) (derivedIbcDenom intermediateChainName : string)
    (destinationDomainId : DomainId) : Result CosmNativeToHypTokenAdapter :=
  base ← newCosmNativeTokenAdapter chainName
          {[ "intermediateRouterAddress"%string := intermediateRouterAddress;
             "destinationRouterAddress"%string := destinationRouterAddress ]}
          properties;
  Ok {| super := base;
        intermediateRouterAddress := intermediateRouterAddress;
        destinationRouterAddress := destinationRouterAddress;
        derivedIbcDenom := derivedIbcDenom;
        intermediateChainName := intermediateChainName;
        destinationDomainId := destinationDomainId |}.

(** The override of [populateTransferTx]; [now] is the clock reading when the
    inherited method, called last, evaluates [new Date().getTime()]. *)
Definition populateTransferTx_viaRouter (now : Z) (this : CosmNativeToHypTokenAdapter)
    (transferParams : TransferParams) : Result MsgTransferEncodeObject :=
  transfer ← populateTransferRemoteTx (intermediateChainName this)
                (derivedIbcDenom this) (intermediateRouterAddress this)
                (ibcDenom (properties (super this)))
                transferParams (destinationDomainId this) "1";
  let memo :=
    stringifyWasmMemo (contractAddress transfer) (msg transfer) (funds transfer) in
  populateTransferTx now (super this)
    {| weiAmountOrId := weiAmountOrId transferParams;
       recipient := intermediateRouterAddress this;
       fromAccountOwner := fromAccountOwner transferParams |}
    (Some memo).
End CosmNativeToHyp.

(** The spec's reading of "missing or empty". *)
Definition missingOrEmpty (property : option string) : Prop :=
  property = None ∨ property = Some ""%string.

(** The largest clock reading, in milliseconds, whose timeout still fits a
    [Long] of nanoseconds: 11 April 2262. *)
Definition lastRepresentableClock : Z := 9223371976854.

(** ** The builder as a sequence of pushes

    Auxiliary, for the proofs: the [push] calls [computeTokenRoutes] makes, in
    the order it makes them, as a list of (origin chain, destination chain,
    route). [computeTokenRoutes_pushAll] below shows the builder is exactly
    the replay of this list on the freshly instantiated map. *)

Abbreviation Edge := (string * string * Route)%type (only parsing).

Definition pushAll (edges : list Edge) (tokenRoutes : RoutesMap) : Result RoutesMap :=
  forOf edges (fun e m => push e.1.1 e.1.2 e.2 m) tokenRoutes.

Definition routeOf (token : TokenMetadata) (ty : RouteType) (o d : Address) : Route :=
  mkRoute ty (tok_caip2Id token) (tok_address token) (tok_tokenRouterAddress token)
          o d (tok_decimals token).

(** The two pushes of one iteration of the innermost loop (none when the
    iteration is skipped). *)
Definition siblingEdges (token : TokenMetadata) (hypToken otherHypToken : HypToken)
  : list Edge :=
  if bool_decide (hyp_caip2Id otherHypToken = hyp_caip2Id hypToken) then []
  else
    [ (hyp_caip2Id hypToken, hyp_caip2Id otherHypToken,
       routeOf token SyntheticToSynthetic (hyp_address hypToken) (hyp_address otherHypToken));
      (hyp_caip2Id otherHypToken, hyp_caip2Id hypToken,
       routeOf token SyntheticToSynthetic (hyp_address otherHypToken) (hyp_address hypToken)) ].

Definition hypTokenEdges (token : TokenMetadata) (hypToken : HypToken) : list Edge :=
  (tok_caip2Id token, hyp_caip2Id hypToken,
   routeOf token BaseToSynthetic (tok_tokenRouterAddress token) (hyp_address hypToken))
  :: (hyp_caip2Id hypToken, tok_caip2Id token,
      routeOf token SyntheticToBase (hyp_address hypToken) (tok_tokenRouterAddress token))
  :: (hypTokens token ≫= siblingEdges token hypToken).

Definition tokenEdges (token : TokenMetadata) : list Edge :=
  hypTokens token ≫= hypTokenEdges token.

Definition allEdges (tokens : list TokenMetadata) : list Edge :=
  tokens ≫= tokenEdges.

(** The routes of [edges] that go under the key [(origin, dest)], in order. *)
Definition edgesFor (origin dest : Caip2Id) (edges : list Edge) : list Route :=
  omap (fun e : Edge =>
          if bool_decide (e.1.1 = origin ∧ e.1.2 = dest) then Some e.2 else None)
       edges.

(** What is stored under [tokenRoutes[origin][dest]], [None] for [undefined]. *)
Definition stored (tokenRoutes : RoutesMap) (origin dest : Caip2Id)
  : option (list Route) :=
  tokenRoutes !! origin ≫= (fun inner => inner !! dest).

(** Every route of the map, for counting; the order is that of the map's
    enumeration and carries no meaning. *)
Definition allRoutes (tokenRoutes : RoutesMap) : list Route :=
  map_to_list tokenRoutes ≫= (fun oi => map_to_list oi.2 ≫= snd).

(** The number of SyntheticToSynthetic routes in a list and in a map. *)
Definition countS2S (routes : list Route) : nat :=
  length (filter (fun r => type r = SyntheticToSynthetic) routes).

Definition countSyntheticToSynthetic (tokenRoutes : RoutesMap) : nat :=
  countS2S (allRoutes tokenRoutes).

(** The size the specification gives for the sibling mesh of a base token
    with [N] synthetic siblings, and the size the builder produces. *)
Definition specMeshSize (token : TokenMetadata) : nat :=
  length (hypTokens token) * (length (hypTokens token) - 1).

Definition builtMeshSize (token : TokenMetadata) : nat :=
  2 * (length (hypTokens token) * (length (hypTokens token) - 1)).

(** The chains a token mentions: its own and those of its hyp tokens. *)
Definition tokenChains (token : TokenMetadata) : list Caip2Id :=
  tok_caip2Id token :: (hyp_caip2Id <$> hypTokens token).

(** A token list the builder accepts: no hyp token sits on the chain of its
    own base token. *)
Definition wellFormed (tokens : list TokenMetadata) : Prop :=
  ∀ token hypToken, token ∈ tokens → hypToken ∈ hypTokens token →
    hyp_caip2Id hypToken ≠ tok_caip2Id token.

(** Within each token, the router address differs from every hyp token
    address, and hyp tokens on different chains have different addresses. *)
Definition distinctAddresses (tokens : list TokenMetadata) : Prop :=
  ∀ token hypToken, token ∈ tokens → hypToken ∈ hypTokens token →
    hyp_address hypToken ≠ tok_tokenRouterAddress token ∧
    ∀ other, other ∈ hypTokens token →
      hyp_caip2Id other ≠ hyp_caip2Id hypToken →
      hyp_address other ≠ hyp_address hypToken.

(** The self-loop freedom the specification asks of a token list's graph. *)
Definition NoSelfLoops (tokens : list TokenMetadata) : Prop :=
  ∀ m o d r, computeTokenRoutes tokens = Ok m → r ∈ getTokenRoutes o d m →
    originTokenAddress r ≠ destTokenAddress r.

(** ** Example configurations *)

(** Base token X on chain A with synthetic siblings on chains B and C, as in
    the end-to-end example of the specification. *)
Definition chainA : Caip2Id := "ethereum:1"%string.
Definition chainB : Caip2Id := "ethereum:10"%string.
Definition chainC : Caip2Id := "ethereum:137"%string.

Definition tokenX : TokenMetadata :=
  mkToken collateral chainA "0xaaaa" "0x1111" "X" 18 None
    [mkHypToken "0xbbbb" chainB; mkHypToken "0xcccc" chainC].

(** The same deployment with both synthetic routers at one address, as a
    deterministic deployer produces. *)
Definition tokenSameAddress : TokenMetadata :=
  mkToken collateral chainA "0xaaaa" "0x1111" "X" 18 None
    [mkHypToken "0x2222" chainB; mkHypToken "0x2222" chainC].

Definition built (tokens : list TokenMetadata) : RoutesMap :=
  match computeTokenRoutes tokens with
  | Ok m => m
  | Throw _ => ∅
  end.

(** ** Example adapters and chain state *)

Definition exampleProvider : SignerOrProvider :=
  {| sp_getBalance _ := Ok 0%Z; sp_isSigner := false;
     sp_getAddress := Throw (Error "not a signer") |}.

(** An ERC20 token reporting 6 decimals and symbol X. *)
Definition exampleErc20 : Contract :=
  {| c_balanceOf _ := Ok 0%Z;
     c_decimals := Ok 6%Z;
     c_symbol := Ok "X"%string;
     c_name := Ok "Token X"%string;
     c_approve spender _ := Ok (mkTx (Some "0xaaaa"%string) None (Some "approve"%string));
     c_transfer to _ := Ok (mkTx (Some "0xaaaa"%string) None (Some "transfer"%string));
     c_wrappedToken := Throw (Error "call revert exception");
     c_domains := Throw (Error "call revert exception");
     c_routers _ := Throw (Error "call revert exception");
     c_quoteGasPayment _ := Throw (Error "call revert exception");
     c_transferRemote _ _ _ := Throw (Error "call revert exception") |}.

(** A collateral router wrapping that token, enrolled with remote routers on
    domains 10 and 137. It has no ERC20 methods of its own. *)
Definition exampleCollateral : Contract :=
  {| c_balanceOf _ := Throw (Error "call revert exception");
     c_decimals := Throw (Error "call revert exception");
     c_symbol := Throw (Error "call revert exception");
     c_name := Throw (Error "call revert exception");
     c_approve _ _ := Throw (Error "call revert exception");
     c_transfer _ _ := Throw (Error "call revert exception");
     c_wrappedToken := Ok "0xaaaa"%string;
     c_domains := Ok [10%Z; 137%Z];
     c_routers d := Ok (if bool_decide (d = 10%Z) then "0xbbbb" else "0xcccc")%string;
     c_quoteGasPayment _ := Ok 1%Z;
     c_transferRemote _ _ _ :=
       Ok (mkTx (Some "0x1111"%string) None (Some "transferRemote"%string)) |}.

Definition exampleCollateralAdapter : IHypTokenAdapter :=
  EvmHypTokenCollateralAdapter (fun _ _ => exampleCollateral) Ok Ok
    exampleProvider "0x1111".

(** Token X configured with 18 decimals, and with the 6 decimals its contract
    reports. *)
Definition tokenX6 : TokenMetadata :=
  mkToken collateral chainA "0xaaaa" "0x1111" "X" 6 None (hypTokens tokenX).

(** A collateral token on a Sealevel chain, configured with 18 decimals. *)
Definition tokenSealevel : TokenMetadata :=
  mkToken collateral "sealevel:1399811149" "0xaaaa" "0x1111" "X" 18 (Some Sealevel) [].

Definition exampleValidate : TokenMetadata → Result unit :=
  validateTokenMetadata (fun _ _ => exampleErc20) (fun _ _ => exampleCollateral)
    (fun _ => exampleProvider).

Definition exampleCosmProperties : CosmProperties :=
  mkCosmProperties (Some "ibc/27394FB092D2")%string (Some "transfer")%string
    (Some "channel-0")%string.

Definition exampleCosmAdapter : CosmNativeTokenAdapter :=
  mkCosmNativeTokenAdapter "neutron" ∅ exampleCosmProperties.

Definition exampleTransferParams : TransferParams :=
  mkTransferParams (AmountNumber 1000) "neutron1recipient" (Some "neutron1sender"%string).

(** ** Router discovery and the route query ([routes.ts]) *)

(** [xs.map(f)] with a callback that may throw: the callback runs on the
    elements in order and the first exception ends the call. *)
Fixpoint arrayMap {A B : Type} (f : A → Result B) (xs : list A) : Result (list B) :=
  match xs with
  | [] => Ok []
  | x :: xs' => y ← f x; ys ← arrayMap f xs'; Ok (y :: ys)
  end.

(** [{ ...originToken, hypTokens }] *)
Definition withHypTokens (originToken : TokenMetadata) (hypTokens : list HypToken)
  : TokenMetadata :=
  mkToken (tok_type originToken) (tok_caip2Id originToken) (tok_address originToken)
    (tok_tokenRouterAddress originToken) (tok_symbol originToken)
    (tok_decimals originToken) (tok_protocol originToken) hypTokens.

Section TokenRoutesQuery.
Variable getErc20Contract : Address → SignerOrProvider → Contract.
Variable getHypErc20CollateralContract : Address → SignerOrProvider → Contract.
Variable getProvider : Caip2Id → SignerOrProvider.

(** [AdapterFactory.CollateralAdapterFromAddress] of [adapters/AdapterFactory],
    which is not among the sources, reduced to what [fetchRemoteHypTokens]
    does with its result: [None] when it returns no adapter (the call site
    asserts non-null), otherwise the outcome of the adapter's
    [getAllRouters()], an array of [{domain, address}]. *)
Variable CollateralAdapterFromAddress :
  Caip2Id → Address → option (Result (list (DomainId * Address))).

(** [getMultiProvider().getChainId] and [getCaip2Id] of [chains/caip2]. *)
Variable getChainId : DomainId → Result Z.
Variable getCaip2Id : ProtocolType → Z → Caip2Id.

Definition fetchRemoteHypTokens (originToken : TokenMetadata) : Result TokenMetadata :=
  let caip2Id := tok_caip2Id originToken in
  let tokenRouterAddress := tok_tokenRouterAddress originToken in
  let protocol := default Ethereum (tok_protocol originToken) in
  match CollateralAdapterFromAddress caip2Id tokenRouterAddress with
  | None => Throw (TypeError "Cannot read properties of undefined (reading 'getAllRouters')")
  | Some getAllRouters =>
      remoteRouters ← getAllRouters;
      hypTokens ← arrayMap (fun router : DomainId * Address =>
                              chainId ← getChainId router.1;
                              let caip2Id := getCaip2Id protocol chainId in
                              Ok {| hyp_address := router.2; hyp_caip2Id := caip2Id |})
                           remoteRouters;
      Ok (withHypTokens originToken hypTokens)
  end.

(** The query function of [useTokenRoutes], on the token list
    [getAllTokens()] returns: tokens are validated and their routers
    discovered one after the other, then the graph is built. *)
Definition useTokenRoutes_queryFn (allTokens : list TokenMetadata) : Result RoutesMap :=
  tokens ← forOf allTokens (fun token tokens =>
              validateTokenMetadata getErc20Contract getHypErc20CollateralContract
                getProvider token;;
              tokenWithHypTokens ← fetchRemoteHypTokens token;
              Ok (tokens ++ [tokenWithHypTokens]))
            [];
  computeTokenRoutes tokens.
End TokenRoutesQuery.

(** The route a route is paired with in the other direction: SyntheticToBase
    for BaseToSynthetic and back, SyntheticToSynthetic for itself. *)
Definition mirrorType (ty : RouteType) : RouteType :=
  match ty with
  | BaseToSynthetic => SyntheticToBase
  | SyntheticToBase => BaseToSynthetic
  | SyntheticToSynthetic => SyntheticToSynthetic
  end.

Definition mirror (r : Route) : Route :=
  mkRoute (mirrorType (type r)) (baseCaip2Id r) (baseTokenAddress r)
    (tokenRouterAddress r) (destTokenAddress r) (originTokenAddress r) (decimals r).

(** The four adapter classes of [EvmTokenContractAdapter.ts], each with the
    signer or provider it was constructed on. *)
Section EvmAdapterClasses.
Variable bigNumberFrom : AmountOrId → Result Z.
Variable getHypErc20CollateralContract : Address → SignerOrProvider → Contract.
Variable bytes32ToAddress : string → Result Address.
Variable normalizeEvmAddress : Address → Result Address.

Inductive evmAdapter (sp : SignerOrProvider) : ITokenAdapter → Prop :=
  | evmAdapter_native :
      evmAdapter sp (EvmNativeTokenAdapter bigNumberFrom sp)
  | evmAdapter_token a f :
      evmAdapter sp (EvmTokenAdapter sp a f)
  | evmAdapter_hyp a f :
      evmAdapter sp (EvmHypTokenAdapter bytes32ToAddress normalizeEvmAddress sp a f)
  | evmAdapter_collateral a :
      evmAdapter sp (EvmHypTokenCollateralAdapter getHypErc20CollateralContract
                       bytes32ToAddress normalizeEvmAddress sp a).
End EvmAdapterClasses.

(** ** More example configurations *)

(** A chain where the router of token X lists two remote routers, and the
    domain-to-chain tables that go with them. *)
Definition exampleFactory (caip2Id : Caip2Id) (router : Address)
  : option (Result (list (DomainId * Address))) :=
  Some (Ok [(10%Z, "0xbbbb"%string); (137%Z, "0xcccc"%string)]).

Definition exampleGetCaip2Id (protocol : ProtocolType) (chainId : Z) : Caip2Id :=
  ("ethereum:" +:+ pretty chainId)%string.

Definition exampleQuery : list TokenMetadata → Result RoutesMap :=
  useTokenRoutes_queryFn (fun _ _ => exampleErc20) (fun _ _ => exampleCollateral)
    (fun _ => exampleProvider) exampleFactory Ok exampleGetCaip2Id.

Definition exampleFetch : TokenMetadata → Result TokenMetadata :=
  fetchRemoteHypTokens exampleFactory Ok exampleGetCaip2Id.

(** Token X as configured, before discovery, with the decimals its contract
    reports. *)
Definition tokenX6config : TokenMetadata :=
  mkToken collateral chainA "0xaaaa" "0x1111" "X" 6 None [].

(** A second base token, on chain B, with one sibling on chain A. *)
Definition tokenY : TokenMetadata :=
  mkToken collateral chainB "0xdddd" "0x3333" "Y" 6 None
    [mkHypToken "0xeeee" chainA].

Definition exampleSigner : SignerOrProvider :=
  {| sp_getBalance _ := Ok 7%Z; sp_isSigner := true;
     sp_getAddress := Ok "0xsigner"%string |}.

(** ** Kinds of failure *)

(** A failure of the generic [Error] class: what every [throw new Error(msg)]
    of the sources raises, and what a contract call that fails raises.
    Nothing but the message tells one such failure from another. *)
Definition genericFailure {A : Type} (outcome : Result A) : Prop :=
  ∃ message, outcome = Throw (Error message).

(** What the specification asks of a capability refusal: a failure whose
    kind sets it apart from the generic failures. *)
Definition typedRefusal {A : Type} (outcome : Result A) : Prop :=
  (∃ e, outcome = Throw e) ∧ ¬ genericFailure outcome.

(** A contract all of whose calls fail with the given message. *)
Definition revertingContract (message : string) : Contract :=
  {| c_balanceOf _ := Throw (Error message);
     c_decimals := Throw (Error message);
     c_symbol := Throw (Error message);
     c_name := Throw (Error message);
     c_approve _ _ := Throw (Error message);
     c_transfer _ _ := Throw (Error message);
     c_wrappedToken := Throw (Error message);
     c_domains := Throw (Error message);
     c_routers _ := Throw (Error message);
     c_quoteGasPayment _ := Throw (Error message);
     c_transferRemote _ _ _ := Throw (Error message) |}.

(** ** Example lookups *)

(** An address check that asks for the [0x] prefix, and exact comparison. *)
Definition exampleIsValid (a : Address) : bool := String.prefix "0x" a.

(** A second BaseToSynthetic route from A to B for the base token of X,
    behind another router, and the map of token X after pushing it. *)
Definition secondRouteAB : Route :=
  mkRoute BaseToSynthetic chainA "0xaaaa" "0x9999" "0x9999" "0xbbbb" 18.

Definition pushedSecondRoute : RoutesMap :=
  match push chainA chainB secondRouteAB (built [tokenX]) with
  | Ok m => m
  | Throw _ => ∅
  end.

(** A token whose router lists a remote router on the token's own chain. *)
Definition tokenOnOwnChain : TokenMetadata :=
  mkToken collateral chainA "0xaaaa" "0x1111" "X" 18 None
    [mkHypToken "0xbbbb" chainA].

(* ===================================================================== *)
(** * Properties *)
(* ===================================================================== *)

(** ** The error monad and loops *)

Lemma Result_bind_Ok {A B : Type} (a : A) (k : A → Result B) : Ok a ≫= k = k a.
Proof. reflexivity. Qed.

Lemma Result_bind_ret_r {A : Type} (c : Result A) : c ≫= Ok = c.
Proof. by destruct c. Qed.

Lemma Result_bind_assoc {A B C : Type} (c : Result A) (f : A → Result B) (g : B → Result C) :
  (c ≫= f) ≫= g = c ≫= (fun a => f a ≫= g).
Proof. by destruct c. Qed.

Lemma Result_bind_eq_Ok {A B : Type} (c : Result A) (k : A → Result B) (b : B) :
  c ≫= k = Ok b ↔ ∃ a, c = Ok a ∧ k a = Ok b.
Proof.
  destruct c as [a|e]; simpl.
  - split; [eauto | by intros (? & [= <-] & ?)].
  - split; [done | by intros (? & ? & ?)].
Qed.

Lemma forOf_app {A S : Type} (xs ys : list A) (body : A → S → Result S) (s : S) :
  forOf (xs ++ ys) body s = forOf xs body s ≫= forOf ys body.
Proof.
  revert s. induction xs as [|x xs IH]; intros s; simpl; [done|].
  rewrite Result_bind_assoc. destruct (body x s); simpl; [apply IH | done].
Qed.

Lemma forOf_ext {A S : Type} (xs : list A) (f g : A → S → Result S) (s : S) :
  (∀ x s', f x s' = g x s') → forOf xs f s = forOf xs g s.
Proof.
  intros Hfg. revert s. induction xs as [|x xs IH]; intros s; simpl; [done|].
  rewrite Hfg. destruct (g x s); simpl; [apply IH | done].
Qed.

Lemma pushAll_app (es1 es2 : list Edge) (m : RoutesMap) :
  pushAll (es1 ++ es2) m = pushAll es1 m ≫= pushAll es2.
Proof. apply forOf_app. Qed.

Lemma forOf_pushAll {A : Type} (f : A → list Edge) (xs : list A) (m : RoutesMap) :
  forOf xs (fun x m' => pushAll (f x) m') m = pushAll (xs ≫= f) m.
Proof.
  revert m. induction xs as [|x xs IH]; intros m; simpl; [done|].
  rewrite pushAll_app. destruct (pushAll (f x) m); simpl; [apply IH | done].
Qed.

(** The builder replays [allEdges] on the instantiated map. *)
Lemma computeTokenRoutes_pushAll (tokens : list TokenMetadata) :
  computeTokenRoutes tokens
  = pushAll (allEdges tokens) (instantiateMap (getChainsFromTokens tokens)).
Proof.
  unfold computeTokenRoutes, allEdges.
  rewrite <- forOf_pushAll. apply forOf_ext. intros token m.
  unfold tokenEdges. rewrite <- forOf_pushAll. apply forOf_ext.
  intros hypToken m'. unfold hypTokenEdges, pushAll at 1. simpl.
  destruct (push _ _ _ m') as [m1|]; simpl; [|done].
  destruct (push _ _ _ m1) as [m2|]; simpl; [|done].
  fold (pushAll ((hypTokens token ≫= siblingEdges token hypToken)) m2).
  rewrite <- forOf_pushAll. apply forOf_ext. intros other m3.
  unfold siblingEdges. case_bool_decide; [done|].
  unfold pushAll. simpl. unfold routeOf.
  destruct (push _ _ _ m3); simpl; [by rewrite Result_bind_ret_r | done].
Qed.

(** ** A single [push] *)

Lemma push_Ok_iff (o d : Caip2Id) (r : Route) (m : RoutesMap) :
  is_Some (stored m o d) ↔ ∃ m', push o d r m = Ok m'.
Proof.
  unfold stored, push. destruct (m !! o) as [inner|]; simpl.
  - destruct (inner !! d); simpl.
    + split; [eauto | by intros _; eexists].
    + split; [by intros [] | by intros []].
  - split; [by intros [] | by intros []].
Qed.

(** A successful [push] appends the route under its own key and leaves every
    other entry, present or absent, as it was. *)
Lemma push_stored (o d : Caip2Id) (r : Route) (m m' : RoutesMap) (o' d' : Caip2Id) :
  push o d r m = Ok m' →
  stored m' o' d'
  = if bool_decide (o = o' ∧ d = d') then (fun rs => rs ++ [r]) <$> stored m o' d'
    else stored m o' d'.
Proof.
  unfold push, stored.
  destruct (m !! o) as [inner|] eqn:Ho; [|done].
  destruct (inner !! d) as [rs|] eqn:Hd; [|done].
  intros [= <-]. destruct (decide (o = o')) as [<-|Hne].
  - rewrite lookup_insert_eq, Ho. simpl.
    destruct (decide (d = d')) as [<-|Hne'].
    + rewrite bool_decide_eq_true_2 by done.
      by rewrite lookup_insert_eq, Hd.
    + rewrite bool_decide_eq_false_2 by (by intros [_ ?]).
      by rewrite lookup_insert_ne.
  - rewrite bool_decide_eq_false_2 by (by intros [? _]).
    by rewrite lookup_insert_ne.
Qed.

Lemma edgesFor_app (o d : Caip2Id) (es1 es2 : list Edge) :
  edgesFor o d (es1 ++ es2) = edgesFor o d es1 ++ edgesFor o d es2.
Proof. apply omap_app. Qed.

Lemma elem_of_edgesFor (o d : Caip2Id) (es : list Edge) (r : Route) :
  r ∈ edgesFor o d es ↔ (o, d, r) ∈ es.
Proof.
  unfold edgesFor. rewrite list_elem_of_omap. split.
  - intros ([[o' d'] r'] & Hin & Heq). simpl in Heq.
    case_bool_decide as Hk; [|done]. destruct Hk as [-> ->].
    by injection Heq as ->.
  - intros Hin. exists (o, d, r). split; [done|]. simpl.
    by rewrite bool_decide_eq_true_2.
Qed.

(** ** Replaying a list of pushes *)

Lemma pushAll_stored (es : list Edge) (m m' : RoutesMap) (o d : Caip2Id) :
  pushAll es m = Ok m' →
  stored m' o d = (fun rs => rs ++ edgesFor o d es) <$> stored m o d.
Proof.
  revert m. induction es as [|[[eo ed] er] es IH]; intros m.
  - intros [= <-]. destruct (stored m o d); simpl; [|done].
    by rewrite app_nil_r.
  - unfold pushAll. simpl. fold (pushAll es).
    intros (m1 & Hpush & Hrest)%Result_bind_eq_Ok.
    rewrite (IH _ Hrest), (push_stored _ _ _ _ _ o d Hpush).
    unfold edgesFor at 2. simpl. fold (edgesFor o d es).
    case_bool_decide; destruct (stored m o d); simpl; try done.
    by rewrite <- app_assoc.
Qed.

(** The replay succeeds exactly when every key it pushes to was initialised:
    no push creates or removes a key. *)
Lemma pushAll_Ok_iff (es : list Edge) (m : RoutesMap) :
  (∃ m', pushAll es m = Ok m')
  ↔ Forall (fun e : Edge => is_Some (stored m e.1.1 e.1.2)) es.
Proof.
  revert m. induction es as [|[[eo ed] er] es IH]; intros m.
  - split; [constructor | by eexists].
  - unfold pushAll. simpl. fold (pushAll es). split.
    + intros (m' & (m1 & Hpush & Hrest)%Result_bind_eq_Ok).
      constructor; simpl.
      * apply (push_Ok_iff _ _ er). eauto.
      * assert (∃ m', pushAll es m1 = Ok m') as HF%IH by eauto.
        eapply Forall_impl; [exact HF|]. intros [[o d] r] Hs. simpl in *.
        rewrite (push_stored _ _ _ _ _ o d Hpush) in Hs.
        case_bool_decide; [|done]. by apply fmap_is_Some in Hs.
    + intros HF. apply Forall_cons in HF as [Hhd Htl]. simpl in Hhd.
      apply (push_Ok_iff _ _ er) in Hhd as [m1 Hpush]. rewrite Hpush. simpl.
      apply IH. eapply Forall_impl; [exact Htl|].
      intros [[o d] r] Hs. simpl in *.
      rewrite (push_stored _ _ _ _ _ o d Hpush).
      case_bool_decide; [|done]. by apply fmap_is_Some.
Qed.

(** ** The instantiated map *)

Lemma emptyDestinations_lookup (origin d : Caip2Id) (cs : list Caip2Id) :
  emptyDestinations origin cs !! d
  = if bool_decide (d ∈ cs ∧ origin ≠ d) then Some [] else None.
Proof.
  unfold emptyDestinations.
  enough (∀ inner : gmap string (list Route),
    foldl (fun inner dest =>
             if bool_decide (origin = dest) then inner else <[dest := []]> inner)
          inner cs !! d
    = if bool_decide (d ∈ cs ∧ origin ≠ d) then Some [] else inner !! d) as H.
  { rewrite H. by rewrite lookup_empty. }
  induction cs as [|c cs IH]; intros inner; cbn [foldl].
  - rewrite bool_decide_eq_false_2; [done|]. intros [[]%elem_of_nil _].
  - rewrite IH. destruct (decide (d ∈ cs ∧ origin ≠ d)) as [[Hin Hne]|Hn].
    + rewrite !bool_decide_eq_true_2; [done| |done]. split; [by right|done].
    + rewrite (bool_decide_eq_false_2 _ Hn).
      destruct (decide (c = d)) as [->|Hcd].
      * destruct (decide (origin = d)) as [->|Hod].
        -- rewrite bool_decide_eq_true_2 by done.
           rewrite bool_decide_eq_false_2; [done|]. by intros [_ ?].
        -- rewrite (bool_decide_eq_false_2 (origin = d)) by done.
           rewrite lookup_insert_eq.
           rewrite bool_decide_eq_true_2; [done|]. split; [by left|done].
      * rewrite (bool_decide_eq_false_2 (d ∈ c :: cs ∧ _)).
        -- destruct (bool_decide (origin = c)); [done|].
           by rewrite lookup_insert_ne.
        -- intros [[->|Hin]%elem_of_cons Hne]; [done|]. by apply Hn.
Qed.

Lemma instantiateMap_lookup (cs : list Caip2Id) (o : Caip2Id) :
  instantiateMap cs !! o
  = if bool_decide (o ∈ cs) then Some (emptyDestinations o cs) else None.
Proof.
  unfold instantiateMap.
  enough (∀ (all : list Caip2Id) (m : RoutesMap),
    foldl (fun tokenRoutes origin =>
             <[origin := emptyDestinations origin all]> tokenRoutes) m cs !! o
    = if bool_decide (o ∈ cs) then Some (emptyDestinations o all) else m !! o) as H.
  { rewrite H. by rewrite lookup_empty. }
  intros all. induction cs as [|c cs IH]; intros m; cbn [foldl].
  - rewrite bool_decide_eq_false_2; [done|]. by intros ?%elem_of_nil.
  - rewrite IH. destruct (decide (o ∈ cs)) as [Hin|Hn].
    + rewrite !bool_decide_eq_true_2; [done|by right|done].
    + rewrite (bool_decide_eq_false_2 _ Hn).
      destruct (decide (c = o)) as [->|Hco].
      * rewrite lookup_insert_eq. rewrite bool_decide_eq_true_2; [done|by left].
      * rewrite lookup_insert_ne by done.
        rewrite bool_decide_eq_false_2; [done|].
        by intros [->|?]%elem_of_cons.
Qed.

(** The dense skeleton: an empty list for every ordered pair of distinct
    chains, nothing elsewhere (in particular nothing on the diagonal). *)
Lemma instantiateMap_stored (cs : list Caip2Id) (o d : Caip2Id) :
  stored (instantiateMap cs) o d
  = if bool_decide (o ∈ cs ∧ d ∈ cs ∧ o ≠ d) then Some [] else None.
Proof.
  unfold stored. rewrite instantiateMap_lookup.
  destruct (decide (o ∈ cs)) as [Ho|Ho].
  - rewrite (bool_decide_eq_true_2 _ Ho). simpl.
    rewrite emptyDestinations_lookup.
    destruct (decide (d ∈ cs ∧ o ≠ d)) as [Hd|Hd].
    + rewrite !bool_decide_eq_true_2; tauto.
    + rewrite !bool_decide_eq_false_2; tauto.
  - rewrite (bool_decide_eq_false_2 _ Ho). simpl.
    rewrite bool_decide_eq_false_2; tauto.
Qed.

(** ** The chains of a token list *)

Lemma elem_of_setAdd (c x : Caip2Id) (chains : list Caip2Id) :
  x ∈ setAdd c chains ↔ x ∈ chains ∨ x = c.
Proof.
  unfold setAdd. case_bool_decide as Hc.
  - split; [by left | by intros [?| ->]].
  - rewrite elem_of_app, list_elem_of_singleton. tauto.
Qed.

Lemma NoDup_setAdd (c : Caip2Id) (chains : list Caip2Id) :
  NoDup chains → NoDup (setAdd c chains).
Proof.
  intros Hnd. unfold setAdd. case_bool_decide as Hc; [done|].
  apply NoDup_app. split_and!; [done| |apply NoDup_singleton].
  by intros x Hx ->%list_elem_of_singleton.
Qed.

Lemma elem_of_getChainsFromTokens (tokens : list TokenMetadata) (c : Caip2Id) :
  c ∈ getChainsFromTokens tokens ↔ ∃ token, token ∈ tokens ∧ c ∈ tokenChains token.
Proof.
  unfold getChainsFromTokens.
  enough (∀ chains,
    c ∈ foldl (fun chains token =>
                 foldl (fun chains hypToken => setAdd (hyp_caip2Id hypToken) chains)
                       (setAdd (tok_caip2Id token) chains) (hypTokens token))
              chains tokens
    ↔ c ∈ chains ∨ ∃ token, token ∈ tokens ∧ c ∈ tokenChains token) as H.
  { rewrite H. split; [intros [[]%elem_of_nil|?]; done | by right]. }
  assert (∀ hs chains,
    c ∈ foldl (fun chains hypToken => setAdd (hyp_caip2Id hypToken) chains) chains hs
    ↔ c ∈ chains ∨ c ∈ hyp_caip2Id <$> hs) as Hinner.
  { induction hs as [|h hs IH]; intros chains; cbn [foldl fmap list_fmap].
    - split; [by left | by intros [?|[]%elem_of_nil]].
    - rewrite IH, elem_of_setAdd, elem_of_cons. tauto. }
  induction tokens as [|t ts IH]; intros chains; cbn [foldl].
  - split; [by left | intros [?|(? & []%elem_of_nil & _)]; done].
  - rewrite IH, Hinner, elem_of_setAdd. unfold tokenChains. split.
    + intros [[[?| ->]|Hh]|(t' & Ht' & Hc)].
      * by left.
      * right. exists t. split; [by left | by left].
      * right. exists t. split; [by left | by right].
      * right. exists t'. split; [by right | done].
    + intros [?|(t' & [->|Ht']%elem_of_cons & Hc)].
      * by left; left; left.
      * apply elem_of_cons in Hc as [->|Hc]; [by left; left; right | by left; right].
      * right. by exists t'.
Qed.

Lemma NoDup_getChainsFromTokens (tokens : list TokenMetadata) :
  NoDup (getChainsFromTokens tokens).
Proof.
  unfold getChainsFromTokens.
  enough (∀ chains, NoDup chains →
    NoDup (foldl (fun chains token =>
                 foldl (fun chains hypToken => setAdd (hyp_caip2Id hypToken) chains)
                       (setAdd (tok_caip2Id token) chains) (hypTokens token))
              chains tokens)) as H.
  { apply H, NoDup_nil_2. }
  assert (∀ (hs : list HypToken) chains, NoDup chains →
    NoDup (foldl (fun chains hypToken => setAdd (hyp_caip2Id hypToken) chains) chains hs))
    as Hinner.
  { induction hs as [|h hs IH]; intros chains Hnd; cbn [foldl]; [done|].
    by apply IH, NoDup_setAdd. }
  induction tokens as [|t ts IH]; intros chains Hnd; cbn [foldl]; [done|].
  by apply IH, Hinner, NoDup_setAdd.
Qed.

(** ** Where an edge of [allEdges] comes from *)

Lemma elem_of_allEdges (tokens : list TokenMetadata) (o d : Caip2Id) (r : Route) :
  (o, d, r) ∈ allEdges tokens ↔
  ∃ token hypToken, token ∈ tokens ∧ hypToken ∈ hypTokens token ∧
    ( (o = tok_caip2Id token ∧ d = hyp_caip2Id hypToken ∧
       r = routeOf token BaseToSynthetic (tok_tokenRouterAddress token) (hyp_address hypToken))
    ∨ (o = hyp_caip2Id hypToken ∧ d = tok_caip2Id token ∧
       r = routeOf token SyntheticToBase (hyp_address hypToken) (tok_tokenRouterAddress token))
    ∨ (∃ other, other ∈ hypTokens token ∧
         hyp_caip2Id other ≠ hyp_caip2Id hypToken ∧
         o = hyp_caip2Id hypToken ∧ d = hyp_caip2Id other ∧
         r = routeOf token SyntheticToSynthetic (hyp_address hypToken) (hyp_address other))).
Proof.
  unfold allEdges. rewrite list_elem_of_bind. split.
  - intros (token & Hin & Htok). exists token.
    unfold tokenEdges in Hin. apply list_elem_of_bind in Hin as (h & Hin & Hh).
    unfold hypTokenEdges in Hin.
    apply elem_of_cons in Hin as [[= -> -> ->]|Hin]; [exists h; eauto 10|].
    apply elem_of_cons in Hin as [[= -> -> ->]|Hin]; [exists h; eauto 10|].
    apply list_elem_of_bind in Hin as (other & Hin & Hother).
    unfold siblingEdges in Hin. case_bool_decide as Hne; [by apply elem_of_nil in Hin|].
    apply elem_of_cons in Hin as [[= -> -> ->]|Hin].
    { exists h. split_and!; [done..|]. right; right. exists other. eauto 10. }
    apply list_elem_of_singleton in Hin as [= -> -> ->].
    exists other. split_and!; [done..|]. right; right. exists h. eauto 10.
  - intros (token & h & Htok & Hh & Hcase). exists token. split; [|done].
    unfold tokenEdges. apply list_elem_of_bind.
    destruct Hcase as [(-> & -> & ->)|[(-> & -> & ->)|(other & Ho & Hne & -> & -> & ->)]].
    + exists h. split; [|done]. unfold hypTokenEdges. by left.
    + exists h. split; [|done]. unfold hypTokenEdges. right. by left.
    + exists h. split; [|done]. unfold hypTokenEdges. do 2 right.
      apply list_elem_of_bind. exists other. split; [|done].
      unfold siblingEdges. rewrite bool_decide_eq_false_2 by done. by left.
Qed.

(** ** What the builder stores *)

(** The built map holds, under every ordered pair of distinct chains of the
    token list, the routes pushed for that pair in push order, and nothing
    under any other key. *)
Lemma computeTokenRoutes_stored (tokens : list TokenMetadata) (m : RoutesMap)
    (o d : Caip2Id) :
  computeTokenRoutes tokens = Ok m →
  stored m o d
  = if bool_decide (o ∈ getChainsFromTokens tokens ∧ d ∈ getChainsFromTokens tokens ∧ o ≠ d)
    then Some (edgesFor o d (allEdges tokens)) else None.
Proof.
  rewrite computeTokenRoutes_pushAll. intros Hm.
  rewrite (pushAll_stored _ _ _ o d Hm), instantiateMap_stored.
  by case_bool_decide.
Qed.

Lemma computeTokenRoutes_elem_of (tokens : list TokenMetadata) (m : RoutesMap)
    (o d : Caip2Id) (rs : list Route) (r : Route) :
  computeTokenRoutes tokens = Ok m → stored m o d = Some rs →
  r ∈ rs ↔ (o, d, r) ∈ allEdges tokens.
Proof.
  intros Hm Hs. rewrite (computeTokenRoutes_stored _ _ o d Hm) in Hs.
  case_bool_decide; [|done]. injection Hs as <-. apply elem_of_edgesFor.
Qed.

Lemma stored_Some (m : RoutesMap) (o d : Caip2Id) (rs : list Route) :
  stored m o d = Some rs ↔ ∃ inner, m !! o = Some inner ∧ inner !! d = Some rs.
Proof.
  unfold stored. destruct (m !! o) as [inner|]; simpl.
  - split; [eauto | by intros (? & [= <-] & ?)].
  - split; [done | by intros (? & ? & ?)].
Qed.

(** The builder returns a map exactly on well-formed token lists; on any
    other list the first push under a diagonal key throws. *)
Lemma computeTokenRoutes_Ok_iff (tokens : list TokenMetadata) :
  (∃ m, computeTokenRoutes tokens = Ok m) ↔ wellFormed tokens.
Proof.
  rewrite computeTokenRoutes_pushAll, pushAll_Ok_iff, Forall_forall.
  unfold wellFormed. split.
  - intros Hall token h Htok Hh.
    specialize (Hall (tok_caip2Id token, hyp_caip2Id h,
      routeOf token BaseToSynthetic (tok_tokenRouterAddress token) (hyp_address h))).
    simpl in Hall. rewrite instantiateMap_stored in Hall.
    case_bool_decide as Hk.
    + destruct Hk as (_ & _ & Hne). by intros Heq; apply Hne.
    + exfalso. eapply is_Some_None, Hall.
      apply elem_of_allEdges. exists token, h. eauto 10.
  - intros Hwf [[o d] r] Hin. simpl. rewrite instantiateMap_stored.
    rewrite bool_decide_eq_true_2; [done|].
    apply elem_of_allEdges in Hin as (token & h & Htok & Hh & Hcase).
    assert (tok_caip2Id token ∈ getChainsFromTokens tokens) as Hbase.
    { apply elem_of_getChainsFromTokens. exists token. split; [done|by left]. }
    assert (∀ h', h' ∈ hypTokens token →
              hyp_caip2Id h' ∈ getChainsFromTokens tokens) as Hsyn.
    { intros h' Hh'. apply elem_of_getChainsFromTokens. exists token.
      split; [done|]. right. by apply list_elem_of_fmap_2. }
    destruct Hcase as [(-> & -> & _)|[(-> & -> & _)|(other & Ho & Hne & -> & -> & _)]].
    + split_and!; [done|by apply Hsyn|]. intros Heq. by eapply Hwf.
    + split_and!; [by apply Hsyn|done|]. by eapply Hwf.
    + split_and!; [by apply Hsyn|by apply Hsyn|]. by intros Heq; apply Hne.
Qed.

(** ** The route queries on a built map *)

Lemma elem_of_getTokenRoutes (m : RoutesMap) (o d : Caip2Id) (r : Route) :
  r ∈ getTokenRoutes o d m ↔ ∃ rs, stored m o d = Some rs ∧ r ∈ rs.
Proof.
  unfold getTokenRoutes. fold (stored m o d).
  destruct (stored m o d) as [rs|].
  - split; [eauto | by intros (? & [= <-] & ?)].
  - split; [by intros ?%elem_of_nil | by intros (? & ? & ?)].
Qed.

Lemma getTokenRoutes_built (tokens : list TokenMetadata) (m : RoutesMap)
    (o d : Caip2Id) (r : Route) :
  computeTokenRoutes tokens = Ok m →
  r ∈ getTokenRoutes o d m ↔
  (o, d, r) ∈ allEdges tokens.
Proof.
  intros Hm. rewrite elem_of_getTokenRoutes. split.
  - intros (rs & Hs & Hr). by apply (computeTokenRoutes_elem_of _ _ _ _ _ _ Hm Hs).
  - intros Hin.
    assert (wellFormed tokens) as Hwf by (apply computeTokenRoutes_Ok_iff; eauto).
    pose proof Hm as Hm'. rewrite computeTokenRoutes_pushAll in Hm'.
    assert (∃ m', pushAll (allEdges tokens)
                    (instantiateMap (getChainsFromTokens tokens)) = Ok m') as HF by eauto.
    apply pushAll_Ok_iff in HF. rewrite Forall_forall in HF.
    specialize (HF _ Hin). simpl in HF.
    rewrite instantiateMap_stored in HF.
    case_bool_decide as Hk; [|by destruct HF].
    exists (edgesFor o d (allEdges tokens)). split.
    + rewrite (computeTokenRoutes_stored _ _ o d Hm).
      by rewrite bool_decide_eq_true_2.
    + by apply elem_of_edgesFor.
Qed.

(** C2 (symmetry). In every map [computeTokenRoutes] builds, a
    BaseToSynthetic route stored under origin chain [X] and destination chain
    [Y] has a SyntheticToBase counterpart stored under origin [Y] and
    destination [X]: its origin and destination token addresses are those of
    the first route swapped, and it carries the same base chain id, base
    token address, router address and decimals. *)
Theorem computeTokenRoutes_symmetry (tokens : list TokenMetadata) (m : RoutesMap)
    (X Y : Caip2Id) (E : Route) :
  computeTokenRoutes tokens = Ok m →
  E ∈ getTokenRoutes X Y m →
  type E = BaseToSynthetic →
  ∃ E', E' ∈ getTokenRoutes Y X m ∧
        type E' = SyntheticToBase ∧
        originTokenAddress E' = destTokenAddress E ∧
        destTokenAddress E' = originTokenAddress E ∧
        baseCaip2Id E' = baseCaip2Id E ∧
        baseTokenAddress E' = baseTokenAddress E ∧
        tokenRouterAddress E' = tokenRouterAddress E ∧
        decimals E' = decimals E.
Proof.
  intros Hm HE Hty.
  apply (getTokenRoutes_built _ _ _ _ _ Hm) in HE.
  apply elem_of_allEdges in HE as (token & h & Htok & Hh & Hcase).
  destruct Hcase as [(-> & -> & ->)|[(_ & _ & ->)|(? & _ & _ & _ & _ & ->)]];
    [|done..].
  exists (routeOf token SyntheticToBase (hyp_address h) (tok_tokenRouterAddress token)).
  split; [|done].
  apply (getTokenRoutes_built _ _ _ _ _ Hm), elem_of_allEdges.
  exists token, h. eauto 10.
Qed.

Lemma computeTokenRoutes_symmetry_witness :
  ∃ E', E' ∈ getTokenRoutes chainB chainA (built [tokenX]) ∧
        type E' = SyntheticToBase ∧
        originTokenAddress E' = "0xbbbb"%string ∧
        destTokenAddress E' = "0x1111"%string ∧
        baseCaip2Id E' = chainA ∧
        baseTokenAddress E' = "0xaaaa"%string ∧
        tokenRouterAddress E' = "0x1111"%string ∧
        decimals E' = 18%Z.
Proof.
  apply (computeTokenRoutes_symmetry [tokenX] (built [tokenX]) chainA chainB
           (mkRoute BaseToSynthetic chainA "0xaaaa" "0x1111" "0x1111" "0xbbbb" 18)).
  - vm_compute. reflexivity.
  - vm_compute. left.
  - reflexivity.
Defined.

(** C3, as stated, fails: two synthetic siblings deployed at the same
    contract address on different chains are joined by SyntheticToSynthetic
    routes whose origin and destination token address are that one address.
    The builder tells siblings apart by chain id and never looks at their
    addresses. *)
Lemma computeTokenRoutes_self_loop : ¬ NoSelfLoops [tokenSameAddress].
Proof.
  intros H.
  apply (H (built [tokenSameAddress]) chainB chainC
           (mkRoute SyntheticToSynthetic chainA "0xaaaa" "0x1111" "0x2222" "0x2222" 18)).
  - vm_compute. reflexivity.
  - vm_compute. left.
  - reflexivity.
Qed.

(** C3 (no self-loops), amended. When, within each token, the router address
    differs from the address of every hyp token and hyp tokens on different
    chains have different addresses, every route of the built map has an
    origin token address distinct from its destination token address. *)
Theorem computeTokenRoutes_no_self_loops (tokens : list TokenMetadata) :
  distinctAddresses tokens → NoSelfLoops tokens.
Proof.
  intros Hda m o d r Hm Hr.
  apply (getTokenRoutes_built _ _ _ _ _ Hm) in Hr.
  apply elem_of_allEdges in Hr as (token & h & Htok & Hh & Hcase).
  destruct (Hda token h Htok Hh) as [Hrouter Hsib].
  destruct Hcase as [(_ & _ & ->)|[(_ & _ & ->)|(other & Ho & Hne & _ & _ & ->)]];
    simpl.
  - by intros Heq; apply Hrouter.
  - done.
  - intros Heq. by apply (Hsib other Ho Hne).
Qed.

Lemma distinctAddresses_tokenX : distinctAddresses [tokenX].
Proof.
  intros token h ->%list_elem_of_singleton Hh. simpl in Hh.
  assert (∀ x : HypToken, x ∈ hypTokens tokenX →
            x = mkHypToken "0xbbbb" chainB ∨ x = mkHypToken "0xcccc" chainC) as Hcases.
  { intros x Hx. simpl in Hx. apply elem_of_cons in Hx as [->|Hx]; [by left|].
    apply list_elem_of_singleton in Hx as ->. by right. }
  split.
  - by destruct (Hcases h Hh) as [-> | ->].
  - intros other Ho Hne.
    destruct (Hcases h Hh) as [-> | ->], (Hcases other Ho) as [-> | ->]; done.
Defined.

Lemma computeTokenRoutes_no_self_loops_witness : NoSelfLoops [tokenX].
Proof.
  apply (computeTokenRoutes_no_self_loops [tokenX]), distinctAddresses_tokenX.
Defined.

(** C6 (route list lookup). On any map and any ordered pair of chains,
    [getTokenRoutes] returns the list stored for the pair when there is one
    and the empty list when the origin or the destination is absent; it is a
    total function. On a map built by [computeTokenRoutes] nothing is stored
    from a chain to itself, so the routes from [A] to [A] are empty. *)
Theorem getTokenRoutes_total (tokens : list TokenMetadata) (tokenRoutes m : RoutesMap)
    (origin destination A : Caip2Id) :
  computeTokenRoutes tokens = Ok tokenRoutes →
  (getTokenRoutes origin destination m
   = match m !! origin with
     | Some inner => match inner !! destination with
                     | Some routes => routes
                     | None => []
                     end
     | None => []
     end)
  ∧ (∀ inner, tokenRoutes !! A = Some inner → inner !! A = None)
  ∧ getTokenRoutes A A tokenRoutes = [].
Proof.
  intros Hm. split_and!.
  - unfold getTokenRoutes. by destruct (m !! origin).
  - intros inner Hinner.
    pose proof (computeTokenRoutes_stored _ _ A A Hm) as Hs.
    rewrite bool_decide_eq_false_2 in Hs by (by intros (_ & _ & ?)).
    unfold stored in Hs. by rewrite Hinner in Hs.
  - unfold getTokenRoutes. fold (stored tokenRoutes A A).
    rewrite (computeTokenRoutes_stored _ _ A A Hm).
    by rewrite bool_decide_eq_false_2 by (by intros (_ & _ & ?)).
Qed.

Lemma getTokenRoutes_total_witness :
  (getTokenRoutes chainA chainB (built [tokenX])
   = [mkRoute BaseToSynthetic chainA "0xaaaa" "0x1111" "0x1111" "0xbbbb" 18])
  ∧ getTokenRoutes "cosmos:unknown" chainB (built [tokenX]) = []
  ∧ getTokenRoutes chainA chainA (built [tokenX]) = [].
Proof.
  destruct (getTokenRoutes_total [tokenX] (built [tokenX]) (built [tokenX])
              chainA chainB chainA) as (H1 & _ & H3).
  { vm_compute. reflexivity. }
  destruct (getTokenRoutes_total [tokenX] (built [tokenX]) (built [tokenX])
              "cosmos:unknown" chainB chainA) as (H2 & _ & _).
  { vm_compute. reflexivity. }
  split_and!; [rewrite H1|rewrite H2|exact H3]; vm_compute; reflexivity.
Defined.

(** ** Single route lookup *)

Section RouteLookupFacts.
Variable isValidEvmAddress : Address → bool.
Variable areAddressesEqual : Address → Address → bool.

Lemma find_first_match {A : Type} (p : A → bool) (l : list A) :
  match List.find p l with
  | Some x => ∃ pre post, l = pre ++ x :: post ∧ p x = true ∧
                          Forall (fun y => p y = false) pre
  | None => Forall (fun y => p y = false) l
  end.
Proof.
  induction l as [|a l IH]; simpl; [constructor|].
  destruct (p a) eqn:Hpa.
  - exists [], l. split_and!; [done|done|constructor].
  - destruct (List.find p l) as [x|].
    + destruct IH as (pre & post & -> & Hx & Hpre).
      exists (a :: pre), post. split_and!; [done|done|by constructor].
    + by constructor.
Qed.

Lemma find_snoc {A : Type} (p : A → bool) (l : list A) (x : A) :
  List.find p (l ++ [x])
  = match List.find p l with
    | Some y => Some y
    | None => if p x then Some x else None
    end.
Proof.
  induction l as [|a l IH]; simpl; [done|]. by destruct (p a).
Qed.

Lemma getTokenRoutes_push (o d : Caip2Id) (r : Route) (m m' : RoutesMap) :
  push o d r m = Ok m' → getTokenRoutes o d m' = getTokenRoutes o d m ++ [r].
Proof.
  intros Hpush. unfold getTokenRoutes.
  fold (stored m' o d). fold (stored m o d).
  rewrite (push_stored _ _ _ _ _ o d Hpush).
  rewrite bool_decide_eq_true_2 by done.
  assert (is_Some (stored m o d)) as [rs ->]; [|done].
  apply (push_Ok_iff o d r). eauto.
Qed.

(** C7 (single route lookup). [getTokenRoute] returns no match when the
    address fails EVM address validation. Otherwise it looks at the list the
    map stores under the origin and then the destination (no list when
    either key is absent) and returns the first route of that list whose
    base token address equals the given one: every route before it in the
    list fails the comparison. It returns no match when no route of the list
    has that base address. The order of the list is insertion order: after a
    further route is pushed under the pair, the lookup returns what it
    returned before whenever that was a match, and the new route only when
    there was none; so of two routes that share the triple the one inserted
    first wins. *)
Theorem getTokenRoute_first_match (origin destination : Caip2Id)
    (address : Address) (tokenRoutes : RoutesMap) :
  let routes :=
    match tokenRoutes !! origin with
    | Some inner => match inner !! destination with
                    | Some routes => routes
                    | None => []
                    end
    | None => []
    end in
  let lookup := getTokenRoute isValidEvmAddress areAddressesEqual
                  origin destination address in
  let same r := areAddressesEqual address (baseTokenAddress r) in
  (if isValidEvmAddress address then
     match lookup tokenRoutes with
     | Some r => ∃ pre post, routes = pre ++ r :: post ∧ same r = true ∧
                             Forall (fun r' => same r' = false) pre
     | None => Forall (fun r' => same r' = false) routes
     end
   else lookup tokenRoutes = None)
  ∧ ∀ route tokenRoutes',
      push origin destination route tokenRoutes = Ok tokenRoutes' →
      lookup tokenRoutes'
      = match lookup tokenRoutes with
        | Some r => Some r
        | None => if isValidEvmAddress address && same route then Some route else None
        end.
Proof.
  intros routes lookup same. unfold lookup, getTokenRoute. split.
  - assert (getTokenRoutes origin destination tokenRoutes = routes) as ->.
    { unfold getTokenRoutes, routes. by destruct (tokenRoutes !! origin). }
    destruct (isValidEvmAddress address); simpl; [|done].
    apply (find_first_match same).
  - intros route tokenRoutes' Hpush.
    rewrite (getTokenRoutes_push _ _ _ _ _ Hpush).
    destruct (isValidEvmAddress address); simpl; [|done].
    apply find_snoc.
Qed.
End RouteLookupFacts.

Lemma getTokenRoute_first_match_witness :
  getTokenRoutes chainA chainB pushedSecondRoute
  = [mkRoute BaseToSynthetic chainA "0xaaaa" "0x1111" "0x1111" "0xbbbb" 18;
     secondRouteAB]
  ∧ getTokenRoute exampleIsValid String.eqb chainA chainB "0xaaaa" pushedSecondRoute
    = Some (mkRoute BaseToSynthetic chainA "0xaaaa" "0x1111" "0x1111" "0xbbbb" 18).
Proof.
  split; [vm_compute; reflexivity|].
  destruct (getTokenRoute_first_match exampleIsValid String.eqb chainA chainB
              "0xaaaa" (built [tokenX])) as [_ Hpush].
  rewrite (Hpush secondRouteAB pushedSecondRoute) by (vm_compute; reflexivity).
  vm_compute. reflexivity.
Defined.

(** ** Counting the routes of a map *)

Lemma map_to_list_replace {V : Type} (m : gmap string V) (k : string) (v v' : V) :
  m !! k = Some v →
  map_to_list m ≡ₚ (k, v) :: map_to_list (delete k m) ∧
  map_to_list (<[k := v']> m) ≡ₚ (k, v') :: map_to_list (delete k m).
Proof.
  intros Hk. split.
  - symmetry. by apply map_to_list_delete.
  - rewrite <- insert_delete_eq. apply map_to_list_insert, lookup_delete_eq.
Qed.

(** A successful [push] adds exactly one route to the map. *)
Lemma allRoutes_push (o d : Caip2Id) (r : Route) (m m' : RoutesMap) :
  push o d r m = Ok m' → allRoutes m' ≡ₚ r :: allRoutes m.
Proof.
  unfold push.
  destruct (m !! o) as [inner|] eqn:Ho; [|done].
  destruct (inner !! d) as [rs|] eqn:Hd; [|done].
  intros [= <-]. unfold allRoutes.
  destruct (map_to_list_replace m o inner (<[d := rs ++ [r]]> inner) Ho) as [-> ->].
  destruct (map_to_list_replace inner d rs (rs ++ [r]) Hd) as [Hi Hi'].
  rewrite !bind_cons. simpl. rewrite Hi, Hi', !bind_cons. simpl.
  rewrite <- !app_assoc. simpl.
  by rewrite <- Permutation_middle.
Qed.

Lemma allRoutes_pushAll (es : list Edge) (m m' : RoutesMap) :
  pushAll es m = Ok m' → allRoutes m' ≡ₚ allRoutes m ++ es.*2.
Proof.
  revert m. induction es as [|[[eo ed] er] es IH]; intros m.
  - intros [= <-]. by rewrite app_nil_r.
  - unfold pushAll. simpl. fold (pushAll es).
    intros (m1 & Hpush & Hrest)%Result_bind_eq_Ok.
    rewrite (IH _ Hrest), (allRoutes_push _ _ _ _ _ Hpush).
    by rewrite <- Permutation_middle.
Qed.

Lemma allRoutes_instantiateMap (cs : list Caip2Id) :
  allRoutes (instantiateMap cs) = [].
Proof.
  unfold allRoutes.
  assert (∀ (l : list (string * gmap string (list Route))),
            (∀ oi, oi ∈ l → map_to_list oi.2 ≫= snd = @nil Route) →
            l ≫= (fun oi => map_to_list oi.2 ≫= snd) = @nil Route) as Hnil.
  { induction l as [|x l IH]; intros Hl; [done|].
    rewrite bind_cons, (Hl x) by (by left). simpl.
    apply IH. intros oi Hoi. apply Hl. by right. }
  apply Hnil. intros [o inner] Hin. simpl.
  apply elem_of_map_to_list in Hin. rewrite instantiateMap_lookup in Hin.
  case_bool_decide; [|done]. injection Hin as <-.
  assert (∀ (l : list (string * list Route)),
            (∀ di, di ∈ l → di.2 = []) → l ≫= snd = @nil Route) as Hnil'.
  { induction l as [|x l IH]; intros Hl; [done|].
    rewrite bind_cons, (Hl x) by (by left). simpl.
    apply IH. intros di Hdi. apply Hl. by right. }
  apply Hnil'. intros [d rs] Hd. simpl.
  apply elem_of_map_to_list in Hd. rewrite emptyDestinations_lookup in Hd.
  case_bool_decide; [|done]. by injection Hd as <-.
Qed.

(** The routes of a built map are, up to order, the routes of [allEdges]. *)
Lemma allRoutes_computeTokenRoutes (tokens : list TokenMetadata) (m : RoutesMap) :
  computeTokenRoutes tokens = Ok m → allRoutes m ≡ₚ (allEdges tokens).*2.
Proof.
  rewrite computeTokenRoutes_pushAll. intros Hm.
  by rewrite (allRoutes_pushAll _ _ _ Hm), allRoutes_instantiateMap.
Qed.

Lemma countS2S_app (l1 l2 : list Route) :
  countS2S (l1 ++ l2) = countS2S l1 + countS2S l2.
Proof. unfold countS2S. by rewrite filter_app, length_app. Qed.

Lemma countS2S_Permutation (l1 l2 : list Route) :
  l1 ≡ₚ l2 → countS2S l1 = countS2S l2.
Proof. unfold countS2S. by intros ->. Qed.

(** In a list whose images under [f] are pairwise distinct, all elements but
    [x] itself differ from [x] under [f]. *)
Lemma length_filter_others {A : Type} (f : A → string) (l : list A) (x : A) :
  NoDup (f <$> l) → x ∈ l →
  length (filter (fun y => f y ≠ f x) l) = length l - 1.
Proof.
  induction l as [|a l IH]; intros Hnd Hx; [by apply elem_of_nil in Hx|].
  rewrite fmap_cons in Hnd. apply NoDup_cons in Hnd as [Ha Hnd].
  rewrite filter_cons. destruct (decide (f a = f x)) as [Heq|Hne].
  - rewrite decide_False by (by intros ?).
    assert (filter (fun y => f y ≠ f x) l = l) as ->.
    { clear IH Hx. induction l as [|b l IH]; [done|].
      rewrite fmap_cons in Ha, Hnd. apply NoDup_cons in Hnd as [_ Hnd].
      rewrite filter_cons, decide_True.
      - f_equal. apply IH; [|done]. intros Hin. apply Ha. by right.
      - intros Hb. apply Ha. rewrite Heq, <- Hb. by left. }
    simpl. lia.
  - rewrite decide_True by done.
    apply elem_of_cons in Hx as [->|Hx]; [done|].
    simpl. rewrite IH by done.
    destruct l; [by apply elem_of_nil in Hx | simpl; lia].
Qed.

Lemma countS2S_siblingEdges (token : TokenMetadata) (h : HypToken)
    (others : list HypToken) :
  countS2S ((others ≫= siblingEdges token h).*2)
  = 2 * length (filter (fun o => hyp_caip2Id o ≠ hyp_caip2Id h) others).
Proof.
  induction others as [|o others IH]; [done|].
  rewrite bind_cons, fmap_app, countS2S_app, IH, filter_cons.
  unfold siblingEdges. case_bool_decide as Hc.
  - rewrite decide_False by (by intros ?). done.
  - rewrite decide_True by done. unfold countS2S. simpl. lia.
Qed.

Lemma countS2S_tokenEdges (token : TokenMetadata) :
  NoDup (hyp_caip2Id <$> hypTokens token) →
  countS2S (tokenEdges token).*2 = builtMeshSize token.
Proof.
  intros Hnd. unfold tokenEdges, builtMeshSize.
  assert (∀ hs : list HypToken, (∀ h, h ∈ hs → h ∈ hypTokens token) →
    countS2S (hs ≫= hypTokenEdges token).*2
    = length hs * (2 * (length (hypTokens token) - 1))) as H.
  { induction hs as [|h hs IH]; intros Hsub; [done|].
    rewrite bind_cons, fmap_app, countS2S_app, IH
      by (intros ? ?; apply Hsub; by right).
    unfold hypTokenEdges. rewrite !fmap_cons.
    change (countS2S (?a :: ?b :: ?l)) with (countS2S l).
    rewrite countS2S_siblingEdges, length_filter_others;
      [simpl; lia | done | apply Hsub; by left]. }
  rewrite H by done. lia.
Qed.

(** The number of SyntheticToSynthetic routes the builder stores: for every
    token whose [N] hyp tokens sit on [N] distinct chains, [2·N·(N−1)], each
    ordered pair of distinct siblings being pushed once from either end of
    the pair. *)
Lemma countSyntheticToSynthetic_computeTokenRoutes (tokens : list TokenMetadata)
    (m : RoutesMap) :
  computeTokenRoutes tokens = Ok m →
  Forall (fun token => NoDup (hyp_caip2Id <$> hypTokens token)) tokens →
  countSyntheticToSynthetic m = sum_list_with builtMeshSize tokens.
Proof.
  intros Hm Hnd. unfold countSyntheticToSynthetic.
  rewrite (countS2S_Permutation _ _ (allRoutes_computeTokenRoutes _ _ Hm)).
  unfold allEdges. clear Hm.
  induction Hnd as [|token tokens Htok _ IH]; [done|].
  rewrite bind_cons, fmap_app, countS2S_app, IH, countS2S_tokenEdges by done.
  done.
Qed.

(** C1 (sibling completeness) at the end-to-end example of the
    specification: base token X on chain A with its two synthetic siblings on
    chains B and C. The specification asks for [2·(2−1) = 2]
    SyntheticToSynthetic routes, one from B to C and one from C to B. The
    builder stores four: every ordered pair is pushed once when its origin is
    the outer-loop sibling and once more when its destination is, so each
    route appears twice under its key. *)
Theorem computeTokenRoutes_sibling_mesh_doubled :
  computeTokenRoutes [tokenX] = Ok (built [tokenX]) ∧
  specMeshSize tokenX = 2 ∧
  countSyntheticToSynthetic (built [tokenX]) = 4 ∧
  getTokenRoutes chainB chainC (built [tokenX])
  = [ mkRoute SyntheticToSynthetic chainA "0xaaaa" "0x1111" "0xbbbb" "0xcccc" 18;
      mkRoute SyntheticToSynthetic chainA "0xaaaa" "0x1111" "0xbbbb" "0xcccc" 18 ] ∧
  getTokenRoutes chainC chainB (built [tokenX])
  = [ mkRoute SyntheticToSynthetic chainA "0xaaaa" "0x1111" "0xcccc" "0xbbbb" 18;
      mkRoute SyntheticToSynthetic chainA "0xaaaa" "0x1111" "0xcccc" "0xbbbb" 18 ].
Proof. split_and!; vm_compute; reflexivity. Qed.

(** ** The EVM adapters *)

Lemma promiseAll_Forall2 {A B : Type} (f : A → Result B) (xs : list A) (ys : list B) :
  promiseAll f xs = Ok ys ↔ Forall2 (fun x y => f x = Ok y) xs ys.
Proof.
  revert ys. induction xs as [|x xs IH]; intros ys; simpl.
  - split; [by intros [= <-]; constructor | by intros ->%Forall2_nil_inv_l].
  - split.
    + intros (y & Hy & (ys' & Hys & [= <-])%Result_bind_eq_Ok)%Result_bind_eq_Ok.
      constructor; [done | by apply IH].
    + intros (y & ys' & Hy & Hys & ->)%Forall2_cons_inv_l.
      apply IH in Hys. rewrite Hy. simpl. by rewrite Hys.
Qed.

Section EvmAdapterFacts.
Variable bigNumberFrom : AmountOrId → Result Z.
Variable getErc20Contract : Address → SignerOrProvider → Contract.
Variable getHypErc20CollateralContract : Address → SignerOrProvider → Contract.
Variable bytes32ToAddress : string → Result Address.
Variable normalizeEvmAddress : Address → Result Address.

Local Abbreviation HypAdapter :=
  (EvmHypTokenAdapter bytes32ToAddress normalizeEvmAddress).
Local Abbreviation CollateralAdapter :=
  (EvmHypTokenCollateralAdapter getHypErc20CollateralContract
     bytes32ToAddress normalizeEvmAddress).

(** C4 (capability refusal), amended. On a collateral / native-router
    adapter, whatever the signer or provider, the router contract and the
    recipient and amount arguments, [getMetadata], [prepareApproveTx] and
    [prepareTransferTx] are present on the adapter's [ITokenAdapter]
    interface and each fails with the adapter's own refusal, raised before
    any call reaches the contract: an [Error] whose message names the
    operation as not available, not applicable or not supported for a
    HypCollateral/HypNative contract. The refusal is a failure of the
    generic [Error] class; its message alone sets it apart. *)
Theorem collateral_adapter_refuses (signerOrProvider : SignerOrProvider)
    (contractAddress recipient : Address) (amountOrId : AmountOrId) :
  let adapter : ITokenAdapter := CollateralAdapter signerOrProvider contractAddress in
  (getMetadata adapter
   = Throw (Error "Metadata not available for HypCollateral/HypNative contract.")
   ∧ genericFailure (getMetadata adapter))
  ∧ (prepareApproveTx adapter recipient amountOrId
     = Throw (Error "Approve not applicable to HypCollateral/HypNative contract.")
     ∧ genericFailure (prepareApproveTx adapter recipient amountOrId))
  ∧ (prepareTransferTx adapter recipient amountOrId
     = Throw (Error "Local transfer not supported for HypCollateral/HypNative contract.")
     ∧ genericFailure (prepareTransferTx adapter recipient amountOrId)).
Proof.
  intros adapter. unfold adapter, genericFailure. simpl.
  split_and!; first [reflexivity | by eexists].
Qed.

(** The native-value adapter refuses metadata and approve in the same way,
    but builds a plain value transfer. *)
Lemma native_adapter_refuses (signerOrProvider : SignerOrProvider)
    (recipient : Address) (amountOrId : AmountOrId) :
  let adapter := EvmNativeTokenAdapter bigNumberFrom signerOrProvider in
  getMetadata adapter = Throw (Error "Metadata not available to native tokens")
  ∧ prepareApproveTx adapter recipient amountOrId
    = Throw (Error "Approve not required for native tokens").
Proof. by split_and!. Qed.



(** The converse: when the domain read and every router read succeed,
    [getAllRouters] returns, with one entry per domain. *)
Lemma getAllRouters_Ok (adapter : IHypTokenAdapter) (domains : list DomainId)
    (resolve : DomainId → Address) :
  routerCapable getHypErc20CollateralContract bytes32ToAddress normalizeEvmAddress
    adapter →
  getDomains adapter = Ok domains →
  (∀ d, d ∈ domains → getRouterAddress adapter d = Ok (resolve d)) →
  getAllRouters adapter
  = Ok ((fun d => {| domain := d; address := Some (resolve d) |}) <$> domains).
Proof.
  assert (∀ sp a f, let adapter := HypAdapter sp a f in
            getDomains adapter = Ok domains →
            (∀ d, d ∈ domains → getRouterAddress adapter d = Ok (resolve d)) →
            getAllRouters adapter
            = Ok ((fun d => {| domain := d; address := Some (resolve d) |}) <$> domains))
    as Hhyp.
  { intros sp a f adapter' Hd Hr. unfold adapter' in *. simpl in *.
    rewrite Hd. simpl.
    assert (promiseAll
              (fun d => routerAddressesAsBytes32 ← c_routers (f a sp) d;
                        addr ← bytes32ToAddress routerAddressesAsBytes32;
                        normalizeEvmAddress addr) domains
            = Ok (resolve <$> domains)) as ->.
    { apply promiseAll_Forall2. clear Hd.
      induction domains as [|d ds IH]; [constructor|].
      rewrite fmap_cons. constructor; [apply Hr; by left|].
      apply IH. intros d' Hd'. apply Hr. by right. }
    simpl. f_equal. clear Hd Hr.
    induction domains as [|d ds IH]; [done|].
    rewrite imap_cons, !fmap_cons. simpl. f_equal. exact IH. }
  intros [sp a f|sp a]; [apply Hhyp | apply (Hhyp sp a getHypErc20CollateralContract)].
Qed.
End EvmAdapterFacts.

(** C4, as stated, fails: the refusals are not typed. Each is a failure of
    the generic [Error] class, and through the [ITokenAdapter] interface the
    refusal of [getMetadata] is the very outcome a fungible-token adapter
    gives when its contract's read fails with the same message. *)
Lemma collateral_refusal_not_typed :
  ¬ typedRefusal (getMetadata exampleCollateralAdapter)
  ∧ ¬ typedRefusal (prepareApproveTx exampleCollateralAdapter "0xbbbb" (AmountNumber 1))
  ∧ ¬ typedRefusal (prepareTransferTx exampleCollateralAdapter "0xbbbb" (AmountNumber 1))
  ∧ getMetadata exampleCollateralAdapter
    = getMetadata
        (EvmTokenAdapter exampleProvider "0xaaaa"
           (fun _ _ => revertingContract
              "Metadata not available for HypCollateral/HypNative contract.")).
Proof.
  split_and!; [| | |reflexivity];
    intros [_ Hnot]; apply Hnot; eexists; reflexivity.
Qed.


(** ** Metadata validation *)

Section ValidationFacts.
Variable getErc20Contract : Address → SignerOrProvider → Contract.
Variable getHypErc20CollateralContract : Address → SignerOrProvider → Contract.
Variable getProvider : Caip2Id → SignerOrProvider.

Local Abbreviation validate :=
  (validateTokenMetadata getErc20Contract getHypErc20CollateralContract getProvider).
Local Abbreviation adapterOf :=
  (wrappedTokenAdapter getErc20Contract getHypErc20CollateralContract getProvider).

(** Tokens that are not collateral are never queried. *)
Lemma validateTokenMetadata_not_collateral (token : TokenMetadata) :
  tok_type token ≠ collateral → validate token = Ok tt.
Proof.
  intros Hty. unfold validateTokenMetadata.
  by rewrite bool_decide_eq_true_2.
Qed.

(** Sealevel tokens are skipped before any read. *)
Lemma validateTokenMetadata_sealevel (token : TokenMetadata) :
  tok_protocol token = Some Sealevel → validate token = Ok tt.
Proof.
  intros Hp. unfold validateTokenMetadata. rewrite Hp. simpl.
  by case_bool_decide.
Qed.

(** C5 (metadata validation), amended. For a collateral token on the
    Ethereum protocol (the default when the configuration names none) whose
    wrapped token reports its metadata: when the configured decimals differ
    from the reported ones, validation fails with the error
    "Token config decimals <configured> does not match contract decimals
    <on-chain>"; when the decimals agree and the configured symbol differs
    from the reported one, it fails with an error that starts with "Token
    config symbol <configured>" and ends with the reported symbol; when both
    agree, validation passes. *)
Theorem validateTokenMetadata_ethereum (token : TokenMetadata)
    (adapter : ITokenAdapter) (onChain : Metadata) :
  tok_type token = collateral →
  default Ethereum (tok_protocol token) = Ethereum →
  adapterOf token = Ok adapter →
  getMetadata adapter = Ok onChain →
  (tok_decimals token ≠ md_decimals onChain →
   validate token
   = Throw (Error ("Token config decimals " +:+ pretty (tok_decimals token)
                   +:+ " does not match contract decimals "
                   +:+ pretty (md_decimals onChain))))
  ∧ (tok_decimals token = md_decimals onChain →
     tok_symbol token ≠ md_symbol onChain →
     ∃ wording,
       validate token
       = Throw (Error ("Token config symbol " +:+ tok_symbol token
                       +:+ wording +:+ md_symbol onChain)))
  ∧ (tok_decimals token = md_decimals onChain →
     tok_symbol token = md_symbol onChain →
     validate token = Ok tt).
Proof.
  intros Hty Hproto Hadapter Hmd.
  unfold validateTokenMetadata.
  rewrite bool_decide_eq_false_2 by (by intros ?).
  rewrite Hproto, Hadapter. simpl. rewrite Hmd. simpl.
  split_and!.
  - intros Hd. by rewrite bool_decide_eq_true_2.
  - intros Hd Hs. exists " does not match contract decimals "%string.
    rewrite bool_decide_eq_false_2 by (by intros ?).
    by rewrite bool_decide_eq_true_2.
  - intros Hd Hs.
    rewrite bool_decide_eq_false_2 by (by intros ?).
    by rewrite bool_decide_eq_false_2 by (by intros ?).
Qed.
End ValidationFacts.

Lemma validateTokenMetadata_ethereum_witness :
  exampleValidate tokenX
  = Throw (Error "Token config decimals 18 does not match contract decimals 6")
  ∧ exampleValidate tokenX6 = Ok tt.
Proof.
  pose (adapter := EvmTokenAdapter exampleProvider "0xaaaa" (fun _ _ => exampleErc20)).
  pose (onChain := mkMetadata 6 "X" "Token X").
  destruct (validateTokenMetadata_ethereum (fun _ _ => exampleErc20)
              (fun _ _ => exampleCollateral) (fun _ => exampleProvider)
              tokenX adapter onChain) as (Hdecimals & _ & _);
    [reflexivity..|].
  destruct (validateTokenMetadata_ethereum (fun _ _ => exampleErc20)
              (fun _ _ => exampleCollateral) (fun _ => exampleProvider)
              tokenX6 adapter onChain) as (_ & _ & Hpass);
    [reflexivity..|].
  split.
  - apply Hdecimals. vm_compute. discriminate.
  - apply Hpass; reflexivity.
Defined.

(** C5, as stated, fails: a collateral token on a Sealevel chain passes
    validation although its configured decimals (18) differ from the
    decimals the chain reports (6). The validator returns before reading
    anything for that protocol. *)
Lemma validateTokenMetadata_skips_sealevel :
  tok_type tokenSealevel = collateral ∧
  (∃ adapter onChain,
     wrappedTokenAdapter (fun _ _ => exampleErc20) (fun _ _ => exampleCollateral)
       (fun _ => exampleProvider) tokenSealevel = Ok adapter ∧
     getMetadata adapter = Ok onChain ∧
     tok_decimals tokenSealevel ≠ md_decimals onChain) ∧
  exampleValidate tokenSealevel = Ok tt.
Proof.
  split_and!; [reflexivity| |reflexivity].
  eexists _, _. split_and!; [reflexivity|reflexivity|].
  vm_compute. discriminate.
Qed.

(** ** The Cosmos IBC adapter *)

Lemma Long_wrap_small (z : Z) :
  (- 9223372036854775808 ≤ z < 9223372036854775808)%Z → Long_wrap z = z.
Proof.
  intros Hz. unfold Long_wrap.
  change (2 ^ 63)%Z with 9223372036854775808%Z.
  change (2 ^ 64)%Z with 18446744073709551616%Z.
  rewrite Z.mod_small; lia.
Qed.

Lemma Long_fromNumber_small (z : Z) :
  (- 9223372036854775808 < z < 9223372036854775807)%Z → Long_fromNumber z = z.
Proof.
  intros Hz. unfold Long_fromNumber.
  change (- 2 ^ 63)%Z with (- 9223372036854775808)%Z.
  change (2 ^ 63)%Z with 9223372036854775808%Z.
  destruct (Z.leb_spec z (- 9223372036854775808)); [lia|].
  destruct (Z.leb_spec 9223372036854775808 (z + 1)); [lia|done].
Qed.

(** Milliseconds to nanoseconds in [Long] arithmetic, without overflow. *)
Lemma Long_nanoseconds (ms : Z) :
  (0 ≤ ms ≤ 9223372036854)%Z →
  Long_multiply (Long_fromNumber ms) 1000000 = (ms * 1000000)%Z.
Proof.
  intros Hms. unfold Long_multiply.
  rewrite !Long_fromNumber_small by lia.
  apply Long_wrap_small. lia.
Qed.

(** C8 (relative IBC timeout). Every call of [populateTransferTx] that is
    given a sender builds its message from the clock reading of that call:
    on any adapter instance, however long ago it was constructed, the
    timeout is that reading plus the fixed window of 60 000 ms (one minute),
    in nanoseconds, hence later than the time of the call. The clock is
    taken to read between the epoch and the last instant whose timeout still
    fits the 64-bit nanosecond count. *)
Theorem populateTransferTx_timeout (now : Z) (adapter : CosmNativeTokenAdapter)
    (transferParams : TransferParams) (memo : option string) :
  truthy (fromAccountOwner transferParams) = true →
  (0 ≤ now ≤ lastRepresentableClock)%Z →
  ∃ msg, populateTransferTx now adapter transferParams memo = Ok msg ∧
         timeoutTimestamp (value msg)
         = ((now + COSMOS_IBC_TRANSFER_TIMEOUT) * 1000000)%Z ∧
         COSMOS_IBC_TRANSFER_TIMEOUT = (60 * 1000)%Z ∧
         (now * 1000000 < timeoutTimestamp (value msg))%Z.
Proof.
  intros Hsender [Hlo Hhi]. unfold populateTransferTx. rewrite Hsender. simpl.
  eexists. split; [reflexivity|]. cbn [value timeoutTimestamp].
  unfold COSMOS_IBC_TRANSFER_TIMEOUT, lastRepresentableClock in *.
  rewrite Long_nanoseconds by lia. split_and!; [done|done|lia].
Qed.

Lemma populateTransferTx_timeout_witness :
  ∃ msg, populateTransferTx 1700000000000 exampleCosmAdapter exampleTransferParams None
         = Ok msg ∧
         timeoutTimestamp (value msg) = 1700000060000000000%Z.
Proof.
  destruct (populateTransferTx_timeout 1700000000000 exampleCosmAdapter
              exampleTransferParams None) as (msg & Hmsg & Ht & _ & _).
  - reflexivity.
  - unfold lastRepresentableClock. lia.
  - exists msg. split; [exact Hmsg | exact Ht].
Defined.

(** JavaScript's falsiness test on a property is the specification's
    "missing or empty". *)
Lemma truthy_false_iff (property : option string) :
  truthy property = false ↔ missingOrEmpty property.
Proof.
  unfold truthy, missingOrEmpty. destruct property as [s|].
  - destruct (String.eqb_spec s "") as [->|Hne]; simpl.
    + split; [by right | done].
    + split; [done | by intros [?|[= ?]]].
  - split; [by left | done].
Qed.

Lemma truthy_true_iff (property : option string) :
  truthy property = true ↔ ¬ missingOrEmpty property.
Proof.
  rewrite <- truthy_false_iff. by destruct (truthy property).
Qed.

(** C9 (fail-fast construction). The constructor of the Cosmos IBC adapter
    throws "Missing properties for CosmNativeTokenAdapter" exactly when one
    of [ibcDenom], [sourcePort], [sourceChannel] is missing or empty, and
    returns the adapter exactly when all three are present and non-empty.
    The check is in the constructor: with a property missing no adapter
    exists on which a transfer could be attempted. *)
Theorem newCosmNativeTokenAdapter_validates (chain : string)
    (addrs : gmap string string) (props : CosmProperties) :
  let anyMissing :=
    missingOrEmpty (ibcDenom props) ∨ missingOrEmpty (sourcePort props)
    ∨ missingOrEmpty (sourceChannel props) in
  (anyMissing ↔
   newCosmNativeTokenAdapter chain addrs props
   = Throw (Error "Missing properties for CosmNativeTokenAdapter"))
  ∧ (¬ anyMissing ↔
     newCosmNativeTokenAdapter chain addrs props
     = Ok (mkCosmNativeTokenAdapter chain addrs props)).
Proof.
  intros anyMissing. unfold anyMissing, newCosmNativeTokenAdapter.
  rewrite <- !truthy_false_iff.
  destruct (truthy (ibcDenom props)), (truthy (sourcePort props)),
    (truthy (sourceChannel props)); simpl;
    (split; split; intros H);
    solve [ done | by destruct H as [?|[?|?]] | by auto | by intros [?|[?|?]]
          | by exfalso; apply H; auto ].
Qed.

(** The composite adapter builds its message through the inherited method,
    so its timeout is relative to the clock reading of the call as well. *)
Lemma populateTransferTx_viaRouter_timeout {Msg Funds : Type}
    (populateTransferRemoteTx :
       string → string → Address → option string →
       TransferParams → DomainId → string → Result (ExecuteInstruction Msg Funds))
    (stringifyWasmMemo : Address → Msg → Funds → string)
    (now : Z) (adapter : CosmNativeToHypTokenAdapter)
    (transferParams : TransferParams) (transfer : ExecuteInstruction Msg Funds) :
  populateTransferRemoteTx (intermediateChainName adapter) (derivedIbcDenom adapter)
    (intermediateRouterAddress adapter) (ibcDenom (properties (super adapter)))
    transferParams (destinationDomainId adapter) "1" = Ok transfer →
  truthy (fromAccountOwner transferParams) = true →
  (0 ≤ now ≤ lastRepresentableClock)%Z →
  ∃ m, populateTransferTx_viaRouter Msg Funds populateTransferRemoteTx
         stringifyWasmMemo now adapter transferParams = Ok m ∧
       timeoutTimestamp (value m) = ((now + COSMOS_IBC_TRANSFER_TIMEOUT) * 1000000)%Z ∧
       msg_receiver (value m) = intermediateRouterAddress adapter.
Proof.
  intros Htransfer Hsender [Hlo Hhi]. unfold populateTransferTx_viaRouter.
  rewrite Htransfer. simpl. unfold populateTransferTx. simpl.
  rewrite Hsender. simpl. eexists. split; [reflexivity|].
  cbn [value timeoutTimestamp msg_receiver].
  unfold COSMOS_IBC_TRANSFER_TIMEOUT, lastRepresentableClock in *.
  by rewrite Long_nanoseconds by lia.
Qed.

(** ** Further properties of the route graph *)

(** X1 (size of the sibling mesh). On a token list the builder accepts and
    whose tokens each have their hyp tokens on pairwise distinct chains, the
    built map holds [2·N·(N−1)] SyntheticToSynthetic routes for every token
    with [N] hyp tokens: twice the number of ordered pairs of distinct
    siblings. *)
Theorem computeTokenRoutes_sibling_mesh_size (tokens : list TokenMetadata)
    (m : RoutesMap) :
  computeTokenRoutes tokens = Ok m →
  Forall (fun token => NoDup (hyp_caip2Id <$> hypTokens token)) tokens →
  countSyntheticToSynthetic m = sum_list_with builtMeshSize tokens.
Proof. apply countSyntheticToSynthetic_computeTokenRoutes. Qed.

Lemma computeTokenRoutes_sibling_mesh_size_witness :
  countSyntheticToSynthetic (built [tokenX]) = 4.
Proof.
  apply (computeTokenRoutes_sibling_mesh_size [tokenX] (built [tokenX])).
  - vm_compute. reflexivity.
  - constructor; [|constructor]. simpl.
    apply NoDup_cons. split; [|apply NoDup_singleton].
    by intros [=]%list_elem_of_singleton.
Defined.

(** X2 (provenance of a route). Every route of a built map was pushed for
    one token of the input list and carries that token's chain id, address,
    router address and decimals as its base chain id, base token address,
    router address and decimals. *)
Theorem computeTokenRoutes_route_of_token (tokens : list TokenMetadata)
    (m : RoutesMap) (o d : Caip2Id) (r : Route) :
  computeTokenRoutes tokens = Ok m →
  r ∈ getTokenRoutes o d m →
  ∃ token, token ∈ tokens ∧
    baseCaip2Id r = tok_caip2Id token ∧
    baseTokenAddress r = tok_address token ∧
    tokenRouterAddress r = tok_tokenRouterAddress token ∧
    decimals r = tok_decimals token.
Proof.
  intros Hm Hr.
  apply (getTokenRoutes_built _ _ _ _ _ Hm), elem_of_allEdges in Hr
    as (token & h & Htok & _ & Hcase).
  exists token. split; [done|].
  by destruct Hcase as [(_ & _ & ->)|[(_ & _ & ->)|(? & _ & _ & _ & _ & ->)]].
Qed.

Lemma computeTokenRoutes_route_of_token_witness :
  ∃ token, token ∈ [tokenX] ∧
    chainA = tok_caip2Id token ∧
    "0xaaaa"%string = tok_address token ∧
    "0x1111"%string = tok_tokenRouterAddress token ∧
    18%Z = tok_decimals token.
Proof.
  apply (computeTokenRoutes_route_of_token [tokenX] (built [tokenX]) chainB chainC
           (mkRoute SyntheticToSynthetic chainA "0xaaaa" "0x1111" "0xbbbb" "0xcccc" 18)).
  - vm_compute. reflexivity.
  - vm_compute. left.
Defined.

Lemma push_Throw (o d : Caip2Id) (r : Route) (m : RoutesMap) (e : JsError) :
  push o d r m = Throw e → ∃ message, e = TypeError message.
Proof.
  unfold push. destruct (m !! o) as [inner|]; [|intros [= <-]; eauto].
  destruct (inner !! d); [done | intros [= <-]; eauto].
Qed.

Lemma pushAll_Throw (es : list Edge) (m : RoutesMap) (e : JsError) :
  pushAll es m = Throw e → ∃ message, e = TypeError message.
Proof.
  revert m. induction es as [|[[eo ed] er] es IH]; intros m; [done|].
  unfold pushAll. simpl. fold (pushAll es).
  destruct (push eo ed er m) as [m1|e1] eqn:Hpush; simpl.
  - apply IH.
  - intros [= <-]. by eapply push_Throw.
Qed.

Lemma not_wellFormed_iff (tokens : list TokenMetadata) :
  ¬ wellFormed tokens ↔
  ∃ token hypToken, token ∈ tokens ∧ hypToken ∈ hypTokens token ∧
    hyp_caip2Id hypToken = tok_caip2Id token.
Proof.
  split.
  - intros Hn.
    assert (¬ Forall (fun token =>
                Forall (fun h => hyp_caip2Id h ≠ tok_caip2Id token) (hypTokens token))
              tokens) as Hnf.
    { intros HF. apply Hn. intros token h Htok Hh.
      rewrite Forall_forall in HF. specialize (HF token Htok).
      rewrite Forall_forall in HF. by apply HF. }
    apply not_Forall_Exists in Hnf; [|apply _].
    apply Exists_exists in Hnf as (token & Htok & Hnf). simpl in Hnf.
    apply not_Forall_Exists in Hnf; [|apply _].
    apply Exists_exists in Hnf as (h & Hh & Hnf). simpl in Hnf.
    exists token, h. split_and!; [done..|]. by apply dec_stable.
  - intros (token & h & Htok & Hh & Heq) Hwf. by apply (Hwf token h).
Qed.

(** X3 (when the builder throws). On a token list that places a hyp token
    on the chain of its own base token, and on no other, [computeTokenRoutes]
    throws, and what it throws is a [TypeError]: the map has no entry from a
    chain to itself to push to. On every other token list it returns a
    map. *)
Theorem computeTokenRoutes_throws_iff (tokens : list TokenMetadata) :
  let offending :=
    ∃ token hypToken, token ∈ tokens ∧ hypToken ∈ hypTokens token ∧
      hyp_caip2Id hypToken = tok_caip2Id token in
  ((∃ message, computeTokenRoutes tokens = Throw (TypeError message)) ↔ offending)
  ∧ ((∃ m, computeTokenRoutes tokens = Ok m) ↔ ¬ offending)
  ∧ ∀ e, computeTokenRoutes tokens = Throw e → ∃ message, e = TypeError message.
Proof.
  intros offending. unfold offending.
  rewrite <- not_wellFormed_iff, computeTokenRoutes_Ok_iff.
  assert (∀ e, computeTokenRoutes tokens = Throw e → ∃ message, e = TypeError message)
    as Htype.
  { intros e. rewrite computeTokenRoutes_pushAll. apply pushAll_Throw. }
  split_and!; [| |done].
  - rewrite <- computeTokenRoutes_Ok_iff.
    destruct (computeTokenRoutes tokens) as [m|e] eqn:Hm.
    + split; [by intros [? ?] | intros H; exfalso; apply H; eauto].
    + destruct (Htype e eq_refl) as [message ->].
      split; [by intros _ [? ?] | eauto].
  - split; [by intros Hwf Hn|]. intros Hnn.
    destruct (computeTokenRoutes tokens) as [m|e] eqn:Hm.
    + apply computeTokenRoutes_Ok_iff. eauto.
    + exfalso. apply Hnn. intros [m Hm']%computeTokenRoutes_Ok_iff. congruence.
Qed.

Lemma computeTokenRoutes_throws_iff_witness :
  ∃ message, computeTokenRoutes [tokenOnOwnChain] = Throw (TypeError message).
Proof.
  apply (computeTokenRoutes_throws_iff [tokenOnOwnChain]).
  exists tokenOnOwnChain, (mkHypToken "0xbbbb" chainA).
  split_and!; [by left | by left | reflexivity].
Defined.

(** The tie-break of [getTokenRoute] on an example: token X listed twice,
    the second time behind another router, gives two BaseToSynthetic routes
    from A to B with the same base address; the lookup returns the one
    pushed first. *)
Example getTokenRoute_first_wins :
  let tokenX' :=
    mkToken collateral chainA "0xaaaa" "0x9999" "X" 18 None (hypTokens tokenX) in
  getTokenRoute (fun a => String.prefix "0x" a) String.eqb chainA chainB "0xaaaa"
    (built [tokenX; tokenX'])
  = Some (mkRoute BaseToSynthetic chainA "0xaaaa" "0x1111" "0x1111" "0xbbbb" 18)
  ∧ length (getTokenRoutes chainA chainB (built [tokenX; tokenX'])) = 2
  ∧ getTokenRoute (fun a => String.prefix "0x" a) String.eqb chainA chainB
      "not-a-real-address" (built [tokenX; tokenX']) = None.
Proof. split_and!; vm_compute; reflexivity. Qed.

(* ===================================================================== *)
(** * Further properties of the modelled code *)
(* ===================================================================== *)

(** ** The route graph, continued *)

Lemma push_lookup_is_Some (o d : Caip2Id) (r : Route) (m m' : RoutesMap) (k : Caip2Id) :
  push o d r m = Ok m' → is_Some (m' !! k) ↔ is_Some (m !! k).
Proof.
  unfold push. destruct (m !! o) as [inner|] eqn:Ho; [|done].
  destruct (inner !! d); [|done]. intros [= <-].
  destruct (decide (o = k)) as [<-|Hne].
  - rewrite lookup_insert_eq, Ho. by split; eauto.
  - by rewrite lookup_insert_ne.
Qed.

Lemma pushAll_lookup_is_Some (es : list Edge) (m m' : RoutesMap) (k : Caip2Id) :
  pushAll es m = Ok m' → is_Some (m' !! k) ↔ is_Some (m !! k).
Proof.
  revert m. induction es as [|[[eo ed] er] es IH]; intros m.
  - by intros [= <-].
  - unfold pushAll. simpl. fold (pushAll es).
    intros (m1 & Hpush & Hrest)%Result_bind_eq_Ok.
    rewrite (IH _ Hrest). by apply (push_lookup_is_Some _ _ _ _ _ _ Hpush).
Qed.

(** What a query on a built map returns, for every pair of chains: the
    routes pushed for the pair, in push order. *)
Lemma getTokenRoutes_edgesFor (tokens : list TokenMetadata) (m : RoutesMap)
    (o d : Caip2Id) :
  computeTokenRoutes tokens = Ok m →
  getTokenRoutes o d m = edgesFor o d (allEdges tokens).
Proof.
  intros Hm. unfold getTokenRoutes. fold (stored m o d).
  destruct (stored m o d) as [rs|] eqn:Hs.
  - rewrite (computeTokenRoutes_stored _ _ o d Hm) in Hs.
    case_bool_decide; [|done]. by injection Hs as <-.
  - symmetry. apply elem_of_nil_inv. intros r Hr.
    apply elem_of_edgesFor, (getTokenRoutes_built _ _ _ _ _ Hm) in Hr.
    apply elem_of_getTokenRoutes in Hr as (rs & Hrs & _). congruence.
Qed.

Lemma wellFormed_app (ts1 ts2 : list TokenMetadata) :
  wellFormed (ts1 ++ ts2) ↔ wellFormed ts1 ∧ wellFormed ts2.
Proof.
  unfold wellFormed. split.
  - intros H. split; intros t h Ht Hh; apply (H t h); [|done| |done];
      apply elem_of_app; auto.
  - intros [H1 H2] t h [Ht|Ht]%elem_of_app Hh; [by apply (H1 t h) | by apply (H2 t h)].
Qed.

(** X4 (every route has its mirror). In a built map, for every route
    stored under origin chain [X] and destination chain [Y], the route with
    origin and destination token address swapped, the same base chain id,
    base token address, router address and decimals, and the opposite type
    (SyntheticToBase for BaseToSynthetic and back, SyntheticToSynthetic for
    itself) is stored under origin [Y] and destination [X]. *)
Theorem computeTokenRoutes_mirror (tokens : list TokenMetadata) (m : RoutesMap)
    (X Y : Caip2Id) (r : Route) :
  computeTokenRoutes tokens = Ok m →
  r ∈ getTokenRoutes X Y m →
  mirror r ∈ getTokenRoutes Y X m.
Proof.
  intros Hm Hr.
  apply (getTokenRoutes_built _ _ _ _ _ Hm) in Hr.
  apply (getTokenRoutes_built _ _ _ _ _ Hm).
  apply elem_of_allEdges in Hr as (token & h & Htok & Hh & Hcase).
  apply elem_of_allEdges.
  destruct Hcase as [(-> & -> & ->)|[(-> & -> & ->)|(other & Ho & Hne & -> & -> & ->)]].
  - exists token, h. split_and!; [done..|]. right; left. done.
  - exists token, h. split_and!; [done..|]. left. done.
  - exists token, other. split_and!; [done..|]. right; right.
    exists h. by split_and!.
Qed.

Lemma computeTokenRoutes_mirror_witness :
  mkRoute SyntheticToSynthetic chainA "0xaaaa" "0x1111" "0xcccc" "0xbbbb" 18
  ∈ getTokenRoutes chainC chainB (built [tokenX]).
Proof.
  apply (computeTokenRoutes_mirror [tokenX] (built [tokenX]) chainB chainC
           (mkRoute SyntheticToSynthetic chainA "0xaaaa" "0x1111" "0xbbbb" "0xcccc" 18)).
  - vm_compute. reflexivity.
  - vm_compute. left.
Defined.

(** X5 (the type of a route follows from where it is stored). In a built
    map a route is never stored from a chain to itself, and its type tells
    on which side its base chain lies: a BaseToSynthetic route leaves the
    base chain and starts at the router address, a SyntheticToBase route
    arrives at the base chain and ends at the router address, and a
    SyntheticToSynthetic route touches the base chain at neither end. *)
Theorem computeTokenRoutes_type_by_position (tokens : list TokenMetadata)
    (m : RoutesMap) (o d : Caip2Id) (r : Route) :
  computeTokenRoutes tokens = Ok m →
  r ∈ getTokenRoutes o d m →
  o ≠ d ∧
  match type r with
  | BaseToSynthetic =>
      o = baseCaip2Id r ∧ originTokenAddress r = tokenRouterAddress r
  | SyntheticToBase =>
      d = baseCaip2Id r ∧ destTokenAddress r = tokenRouterAddress r
  | SyntheticToSynthetic =>
      o ≠ baseCaip2Id r ∧ d ≠ baseCaip2Id r
  end.
Proof.
  intros Hm Hr.
  assert (wellFormed tokens) as Hwf by (apply computeTokenRoutes_Ok_iff; eauto).
  apply (getTokenRoutes_built _ _ _ _ _ Hm) in Hr.
  apply elem_of_allEdges in Hr as (token & h & Htok & Hh & Hcase).
  destruct Hcase as [(-> & -> & ->)|[(-> & -> & ->)|(other & Ho & Hne & -> & -> & ->)]];
    simpl.
  - split; [|done]. intros Heq. by apply (Hwf token h).
  - split; [|done]. by apply (Hwf token h).
  - split; [by intros Heq; apply Hne|].
    split; [by apply (Hwf token h) | by apply (Hwf token other)].
Qed.

Lemma computeTokenRoutes_type_by_position_witness :
  chainB ≠ chainC ∧ chainB ≠ chainA ∧ chainC ≠ chainA.
Proof.
  apply (computeTokenRoutes_type_by_position [tokenX] (built [tokenX]) chainB chainC
           (mkRoute SyntheticToSynthetic chainA "0xaaaa" "0x1111" "0xbbbb" "0xcccc" 18)).
  - vm_compute. reflexivity.
  - vm_compute. left.
Defined.

(** X6 (the dense skeleton). A built map has an origin entry for exactly
    the chains the token list mentions (as a token's own chain or as the
    chain of a hyp token), and under an origin a destination entry, possibly
    an empty list, for exactly the other chains mentioned. Lookups between
    two distinct known chains therefore never meet a missing key. *)
Theorem computeTokenRoutes_skeleton (tokens : list TokenMetadata) (m : RoutesMap)
    (o d : Caip2Id) :
  computeTokenRoutes tokens = Ok m →
  let mentioned c := ∃ token, token ∈ tokens ∧ c ∈ tokenChains token in
  (is_Some (m !! o) ↔ mentioned o) ∧
  ((∃ inner, m !! o = Some inner ∧ is_Some (inner !! d))
   ↔ mentioned o ∧ mentioned d ∧ o ≠ d).
Proof.
  intros Hm mentioned. unfold mentioned. split.
  - rewrite computeTokenRoutes_pushAll in Hm.
    rewrite (pushAll_lookup_is_Some _ _ _ o Hm), instantiateMap_lookup.
    rewrite <- elem_of_getChainsFromTokens.
    case_bool_decide as Hc; split; intros H; done.
  - rewrite <- !elem_of_getChainsFromTokens.
    pose proof (computeTokenRoutes_stored _ _ o d Hm) as Hs. split.
    + intros (inner & Hinner & [rs Hrs]).
      assert (stored m o d = Some rs) as Hs' by (apply stored_Some; eauto).
      rewrite Hs' in Hs. by case_bool_decide.
    + intros Hk. rewrite bool_decide_eq_true_2 in Hs by done.
      apply stored_Some in Hs as (inner & ? & ?). eauto.
Qed.

Lemma computeTokenRoutes_skeleton_witness :
  (is_Some (built [tokenX] !! chainB) ↔
     ∃ token, token ∈ [tokenX] ∧ chainB ∈ tokenChains token) ∧
  ((∃ inner, built [tokenX] !! chainB = Some inner ∧ is_Some (inner !! chainA))
   ↔ (∃ token, token ∈ [tokenX] ∧ chainB ∈ tokenChains token) ∧
     (∃ token, token ∈ [tokenX] ∧ chainA ∈ tokenChains token) ∧ chainB ≠ chainA).
Proof.
  apply (computeTokenRoutes_skeleton [tokenX] (built [tokenX]) chainB chainA).
  vm_compute. reflexivity.
Defined.

(** X7 (the builder composes over concatenation). When the builder accepts
    the concatenation of two token lists it accepts each list alone, and a
    query on the combined map returns the routes of the first list's map
    followed by the routes of the second list's map: base tokens neither
    remove nor reorder each other's routes, and earlier tokens come first. *)
Theorem computeTokenRoutes_app (ts1 ts2 : list TokenMetadata) (m : RoutesMap) :
  computeTokenRoutes (ts1 ++ ts2) = Ok m →
  ∃ m1 m2, computeTokenRoutes ts1 = Ok m1 ∧ computeTokenRoutes ts2 = Ok m2 ∧
    ∀ o d, getTokenRoutes o d m = getTokenRoutes o d m1 ++ getTokenRoutes o d m2.
Proof.
  intros Hm.
  assert (wellFormed (ts1 ++ ts2)) as [Hwf1 Hwf2]%wellFormed_app
    by (apply computeTokenRoutes_Ok_iff; eauto).
  apply computeTokenRoutes_Ok_iff in Hwf1 as [m1 Hm1].
  apply computeTokenRoutes_Ok_iff in Hwf2 as [m2 Hm2].
  exists m1, m2. split_and!; [done..|]. intros o d.
  rewrite (getTokenRoutes_edgesFor _ _ o d Hm), (getTokenRoutes_edgesFor _ _ o d Hm1),
    (getTokenRoutes_edgesFor _ _ o d Hm2).
  unfold allEdges. by rewrite bind_app, edgesFor_app.
Qed.

Lemma computeTokenRoutes_app_witness :
  ∃ m1 m2, computeTokenRoutes [tokenX] = Ok m1 ∧ computeTokenRoutes [tokenY] = Ok m2 ∧
    ∀ o d, getTokenRoutes o d (built ([tokenX] ++ [tokenY]))
           = getTokenRoutes o d m1 ++ getTokenRoutes o d m2.
Proof.
  apply (computeTokenRoutes_app [tokenX] [tokenY] (built ([tokenX] ++ [tokenY]))).
  vm_compute. reflexivity.
Defined.

(** X10 (the chains of a token list). [getChainsFromTokens] lists every
    chain once, and lists exactly the chains that occur as the chain of a
    token or of one of its hyp tokens. *)
Theorem getChainsFromTokens_chains (tokens : list TokenMetadata) :
  NoDup (getChainsFromTokens tokens) ∧
  ∀ c, c ∈ getChainsFromTokens tokens ↔
       ∃ token, token ∈ tokens ∧
         (c = tok_caip2Id token ∨
          ∃ hypToken, hypToken ∈ hypTokens token ∧ c = hyp_caip2Id hypToken).
Proof.
  split; [apply NoDup_getChainsFromTokens|]. intros c.
  rewrite elem_of_getChainsFromTokens. unfold tokenChains.
  split; intros (token & Htok & Hc); exists token; (split; [done|]).
  - apply elem_of_cons in Hc as [->|Hc]; [by left|]. right.
    apply list_elem_of_fmap in Hc as (h & -> & Hh). eauto.
  - destruct Hc as [->|(h & Hh & ->)]; [by left|]. right.
    by apply list_elem_of_fmap_2.
Qed.

(** ** The boolean query *)

Section HasTokenRouteFacts.
Variable isValidEvmAddress : Address → bool.
Variable areAddressesEqual : Address → Address → bool.

Lemma find_is_Some {A : Type} (p : A → bool) (l : list A) :
  is_Some (List.find p l) ↔ ∃ x, x ∈ l ∧ p x = true.
Proof.
  induction l as [|a l IH]; simpl.
  - split; [by intros [] | by intros (? & []%elem_of_nil & _)].
  - destruct (p a) eqn:Hpa.
    + split; [intros _; exists a; split; [by left|done] | by eauto].
    + rewrite IH. split.
      * intros (x & Hx & Hp). exists x. split; [by right|done].
      * intros (x & [->|Hx]%elem_of_cons & Hp); [congruence | eauto].
Qed.

(** X9 (what [hasTokenRoute] answers). On any map, [hasTokenRoute] is true
    exactly when the address passes EVM address validation, the map has an
    entry for the origin chain and under it a list for the destination
    chain, and that list holds a route whose base token address equals the
    address; an invalid address, an unknown chain and an empty list all
    give false. *)
Theorem hasTokenRoute_true_iff (origin destination : Caip2Id) (address : Address)
    (tokenRoutes : RoutesMap) :
  hasTokenRoute isValidEvmAddress areAddressesEqual origin destination address
    tokenRoutes = true
  ↔ isValidEvmAddress address = true ∧
    ∃ inner routes r,
      tokenRoutes !! origin = Some inner ∧ inner !! destination = Some routes ∧
      r ∈ routes ∧ areAddressesEqual address (baseTokenAddress r) = true.
Proof.
  unfold hasTokenRoute, getTokenRoute. rewrite bool_decide_eq_true.
  destruct (isValidEvmAddress address); simpl.
  - rewrite find_is_Some. split.
    + intros (r & (routes & (inner & ? & ?)%stored_Some & ?)%elem_of_getTokenRoutes & ?).
      split; [done|]. by exists inner, routes, r.
    + intros (_ & inner & routes & r & Hi & Hr & Hin & Heq).
      exists r. split; [|done]. apply elem_of_getTokenRoutes.
      exists routes. split; [|done]. apply stored_Some. eauto.
  - split; [by intros [] | by intros [? _]].
Qed.

(** X8 (the mesh of a base token is fully connected). In a built map, for
    a token of the list whose address is a valid EVM address equal to
    itself, [hasTokenRoute] with that address is true between any two
    distinct chains of the token's mesh, base chain and sibling chains
    alike. *)
Theorem hasTokenRoute_mesh (tokens : list TokenMetadata) (m : RoutesMap)
    (token : TokenMetadata) (c1 c2 : Caip2Id) :
  computeTokenRoutes tokens = Ok m →
  token ∈ tokens →
  isValidEvmAddress (tok_address token) = true →
  areAddressesEqual (tok_address token) (tok_address token) = true →
  c1 ∈ tokenChains token → c2 ∈ tokenChains token → c1 ≠ c2 →
  hasTokenRoute isValidEvmAddress areAddressesEqual c1 c2 (tok_address token) m = true.
Proof.
  intros Hm Htok Hvalid Hrefl Hc1 Hc2 Hne.
  unfold hasTokenRoute, getTokenRoute. rewrite Hvalid. simpl.
  apply bool_decide_eq_true, find_is_Some.
  enough (∃ ty o d, (c1, c2, routeOf token ty o d) ∈ allEdges tokens)
    as (ty & o & d & Hin).
  { exists (routeOf token ty o d). split; [|done].
    by apply (getTokenRoutes_built _ _ _ _ _ Hm). }
  unfold tokenChains in Hc1, Hc2.
  apply elem_of_cons in Hc1 as [->|(h1 & -> & Hh1)%list_elem_of_fmap];
    apply elem_of_cons in Hc2 as [->|(h2 & -> & Hh2)%list_elem_of_fmap].
  - done.
  - eexists _, _, _. apply elem_of_allEdges. exists token, h2. eauto 10.
  - eexists _, _, _. apply elem_of_allEdges. exists token, h1. eauto 10.
  - eexists _, _, _. apply elem_of_allEdges. exists token, h1.
    split_and!; [done..|]. right; right. exists h2.
    split_and!; [done| |done..]. by intros Heq; apply Hne.
Qed.
End HasTokenRouteFacts.

Lemma hasTokenRoute_true_iff_witness :
  hasTokenRoute exampleIsValid String.eqb chainA chainB "0xaaaa" (built [tokenX])
  = true.
Proof.
  apply (hasTokenRoute_true_iff exampleIsValid String.eqb chainA chainB "0xaaaa"
           (built [tokenX])).
  split; [reflexivity|].
  exists (default ∅ (built [tokenX] !! chainA)),
         (getTokenRoutes chainA chainB (built [tokenX])),
         (mkRoute BaseToSynthetic chainA "0xaaaa" "0x1111" "0x1111" "0xbbbb" 18).
  split_and!; [vm_compute; reflexivity | vm_compute; reflexivity
              | vm_compute; left | reflexivity].
Defined.

(** The three ways [hasTokenRoute] says no, on the map of token X: an
    address that fails validation, a chain the map does not know, and a
    pair of chains whose list has no route for the address. *)
Example hasTokenRoute_false_examples :
  hasTokenRoute exampleIsValid String.eqb chainA chainB "not-a-real-address"
    (built [tokenX]) = false
  ∧ hasTokenRoute exampleIsValid String.eqb "cosmos:unknown" chainB "0xaaaa"
      (built [tokenX]) = false
  ∧ hasTokenRoute exampleIsValid String.eqb chainA chainB "0xffff"
      (built [tokenX]) = false.
Proof. split_and!; vm_compute; reflexivity. Qed.

Lemma hasTokenRoute_mesh_witness :
  hasTokenRoute (fun a => String.prefix "0x" a) String.eqb chainC chainB "0xaaaa"
    (built [tokenX]) = true.
Proof.
  apply (hasTokenRoute_mesh (fun a => String.prefix "0x" a) String.eqb
           [tokenX] (built [tokenX]) tokenX chainC chainB).
  - vm_compute. reflexivity.
  - by left.
  - reflexivity.
  - reflexivity.
  - unfold tokenChains. simpl. right; right; left.
  - unfold tokenChains. simpl. right; left.
  - done.
Defined.

(** ** Metadata validation, continued *)

Section ValidationMore.
Variable getErc20Contract : Address → SignerOrProvider → Contract.
Variable getHypErc20CollateralContract : Address → SignerOrProvider → Contract.
Variable getProvider : Caip2Id → SignerOrProvider.

Local Abbreviation validate' :=
  (validateTokenMetadata getErc20Contract getHypErc20CollateralContract getProvider).

(** X11 (when validation passes). For a collateral token on the Ethereum
    protocol, [validateTokenMetadata] passes exactly when the router's
    [wrappedToken()] read succeeds, the decimals, symbol and name reads of
    the wrapped token all succeed, and the decimals and symbol read equal
    the configured ones. The name is read, so a failing name read fails
    validation, but its value is compared with nothing. *)
Theorem validateTokenMetadata_Ok_iff (token : TokenMetadata) :
  tok_type token = collateral →
  default Ethereum (tok_protocol token) = Ethereum →
  let provider := getProvider (tok_caip2Id token) in
  let router := getHypErc20CollateralContract (tok_tokenRouterAddress token) provider in
  validate' token = Ok tt ↔
  ∃ wrapped name,
    c_wrappedToken router = Ok wrapped ∧
    c_decimals (getErc20Contract wrapped provider) = Ok (tok_decimals token) ∧
    c_symbol (getErc20Contract wrapped provider) = Ok (tok_symbol token) ∧
    c_name (getErc20Contract wrapped provider) = Ok name.
Proof.
  intros Hty Hproto provider router.
  unfold validateTokenMetadata, wrappedTokenAdapter.
  rewrite bool_decide_eq_false_2 by (by intros ?). rewrite Hproto.
  fold provider. fold router.
  destruct (c_wrappedToken router) as [wrapped|e] eqn:Hw; simpl;
    [|split; [done | intros (? & ? & ? & _); congruence]].
  destruct (c_decimals (getErc20Contract wrapped provider)) as [d|e] eqn:Hd0; simpl;
    [|split; [done | intros (? & ? & ? & ? & _); congruence]].
  destruct (c_symbol (getErc20Contract wrapped provider)) as [s|e] eqn:Hs0; simpl;
    [|split; [done | intros (? & ? & ? & _ & ? & _); congruence]].
  destruct (c_name (getErc20Contract wrapped provider)) as [n|e] eqn:Hn0; simpl;
    [|split; [done | intros (? & ? & ? & _ & _ & ?); congruence]].
  case_bool_decide as Hd.
  { split; [done|]. intros (? & ? & ? & ? & _). exfalso. apply Hd. congruence. }
  case_bool_decide as Hs.
  { split; [done|]. intros (? & ? & ? & _ & ? & _). exfalso. apply Hs. congruence. }
  split; [|done]. intros _. exists wrapped, n.
  rewrite Hd0, Hs0, Hn0, Hd, Hs. done.
Qed.

(** X12 (what validation never reads). A token that is not of type
    collateral, and a token on the Sealevel protocol, pass validation
    whatever the chain state: no provider is asked and no contract is read,
    so even contracts whose every read fails do not fail them. *)
Theorem validateTokenMetadata_skipped (token : TokenMetadata) :
  tok_type token ≠ collateral ∨ tok_protocol token = Some Sealevel →
  validate' token = Ok tt.
Proof.
  intros [Hty|Hp].
  - unfold validateTokenMetadata. by rewrite bool_decide_eq_true_2.
  - unfold validateTokenMetadata. rewrite Hp. simpl. by case_bool_decide.
Qed.
End ValidationMore.

Lemma validateTokenMetadata_Ok_iff_witness :
  exampleValidate tokenX6 = Ok tt ↔
  ∃ wrapped name,
    c_wrappedToken exampleCollateral = Ok wrapped ∧
    c_decimals exampleErc20 = Ok 6%Z ∧
    c_symbol exampleErc20 = Ok "X"%string ∧
    c_name exampleErc20 = Ok name.
Proof.
  apply (validateTokenMetadata_Ok_iff (fun _ _ => exampleErc20)
           (fun _ _ => exampleCollateral) (fun _ => exampleProvider) tokenX6);
    reflexivity.
Defined.

Lemma validateTokenMetadata_skipped_witness :
  validateTokenMetadata (fun _ _ => exampleCollateral) (fun _ _ => exampleErc20)
    (fun _ => exampleProvider)
    (mkToken native chainA "0xaaaa" "0x1111" "ETH" 18 None []) = Ok tt.
Proof.
  apply (validateTokenMetadata_skipped (fun _ _ => exampleCollateral)
           (fun _ _ => exampleErc20) (fun _ => exampleProvider)).
  left. discriminate.
Defined.

(** ** Router discovery and the route query *)

Lemma arrayMap_Forall2 {A B : Type} (f : A → Result B) (xs : list A) (ys : list B) :
  arrayMap f xs = Ok ys ↔ Forall2 (fun x y => f x = Ok y) xs ys.
Proof.
  revert ys. induction xs as [|x xs IH]; intros ys; simpl.
  - split; [by intros [= <-]; constructor | by intros ->%Forall2_nil_inv_l].
  - split.
    + intros (y & Hy & (ys' & Hys & [= <-])%Result_bind_eq_Ok)%Result_bind_eq_Ok.
      constructor; [done | by apply IH].
    + intros (y & ys' & Hy & Hys & ->)%Forall2_cons_inv_l.
      apply IH in Hys. rewrite Hy. simpl. by rewrite Hys.
Qed.

Section QueryFacts.
Variable getErc20Contract : Address → SignerOrProvider → Contract.
Variable getHypErc20CollateralContract : Address → SignerOrProvider → Contract.
Variable getProvider : Caip2Id → SignerOrProvider.
Variable CollateralAdapterFromAddress :
  Caip2Id → Address → option (Result (list (DomainId * Address))).
Variable getChainId : DomainId → Result Z.
Variable getCaip2Id : ProtocolType → Z → Caip2Id.

Local Abbreviation validate :=
  (validateTokenMetadata getErc20Contract getHypErc20CollateralContract getProvider).
Local Abbreviation fetch :=
  (fetchRemoteHypTokens CollateralAdapterFromAddress getChainId getCaip2Id).
Local Abbreviation query :=
  (useTokenRoutes_queryFn getErc20Contract getHypErc20CollateralContract getProvider
     CollateralAdapterFromAddress getChainId getCaip2Id).
Local Abbreviation step :=
  (fun (token : TokenMetadata) (tokens : list TokenMetadata) =>
     validate token;;
     tokenWithHypTokens ← fetch token;
     Ok (tokens ++ [tokenWithHypTokens])).

(** X15 (what discovery returns). When [fetchRemoteHypTokens] returns, the
    adapter factory gave an adapter whose [getAllRouters] succeeded; the
    result is the origin token with only its hyp tokens replaced, and the
    hyp tokens line up with the routers: same number, same order, each
    carrying its router's address and the CAIP-2 id made from the token's
    protocol (Ethereum when none is configured) and the chain id of the
    router's domain. *)
Theorem fetchRemoteHypTokens_routers (originToken token : TokenMetadata) :
  fetch originToken = Ok token →
  ∃ routers,
    CollateralAdapterFromAddress (tok_caip2Id originToken)
      (tok_tokenRouterAddress originToken) = Some (Ok routers) ∧
    token = withHypTokens originToken (hypTokens token) ∧
    Forall2 (fun (router : DomainId * Address) hypToken =>
               hyp_address hypToken = router.2 ∧
               ∃ chainId, getChainId router.1 = Ok chainId ∧
                 hyp_caip2Id hypToken
                 = getCaip2Id (default Ethereum (tok_protocol originToken)) chainId)
            routers (hypTokens token).
Proof.
  unfold fetchRemoteHypTokens.
  destruct (CollateralAdapterFromAddress _ _) as [[routers|e]|]; [|done..].
  simpl. intros (hyps & Hhyps & [= <-])%Result_bind_eq_Ok.
  exists routers. split_and!; [done|done|]. simpl.
  apply arrayMap_Forall2 in Hhyps.
  eapply Forall2_impl; [exact Hhyps|]. intros [dom addr] h Hh. simpl in *.
  destruct (getChainId dom) as [c|]; [|done]. injection Hh as <-. eauto.
Qed.

Lemma query_loop (allTokens acc tokens : list TokenMetadata) :
  forOf allTokens step acc = Ok tokens ↔
  ∃ fetched, tokens = acc ++ fetched ∧
    Forall2 (fun t t' => validate t = Ok tt ∧ fetch t = Ok t') allTokens fetched.
Proof.
  revert acc. induction allTokens as [|t ts IH]; intros acc; simpl.
  - split.
    + intros [= <-]. exists []. by rewrite app_nil_r.
    + intros (fetched & -> & ->%Forall2_nil_inv_l). by rewrite app_nil_r.
  - split.
    + intros (acc' & Hstep & Hrest)%Result_bind_eq_Ok.
      apply Result_bind_eq_Ok in Hstep as ([] & Hv & Hstep).
      apply Result_bind_eq_Ok in Hstep as (t' & Hf & [= <-]).
      apply IH in Hrest as (fetched & -> & HF).
      exists (t' :: fetched). rewrite <- app_assoc. split; [done|].
      by constructor.
    + intros (fetched & -> & (t' & fetched' & [Hv Hf] & HF & ->)%Forall2_cons_inv_l).
      rewrite Hv. simpl. rewrite Hf. simpl.
      apply IH. exists fetched'. by rewrite <- app_assoc.
Qed.

(** X13 (when the route query succeeds). The query function of
    [useTokenRoutes] returns a map exactly when every configured token
    passes validation and has its routers discovered, and the builder
    accepts the discovered tokens; the map is then the one built from the
    discovered tokens in configuration order. *)
Theorem useTokenRoutes_queryFn_Ok_iff (allTokens : list TokenMetadata)
    (tokenRoutes : RoutesMap) :
  query allTokens = Ok tokenRoutes ↔
  ∃ tokens,
    Forall2 (fun t t' => validate t = Ok tt ∧ fetch t = Ok t') allTokens tokens ∧
    computeTokenRoutes tokens = Ok tokenRoutes.
Proof.
  unfold useTokenRoutes_queryFn. rewrite Result_bind_eq_Ok. split.
  - intros (tokens & (fetched & -> & HF)%query_loop & Hm). eauto.
  - intros (tokens & HF & Hm). exists tokens. split; [|done].
    apply query_loop. by exists tokens.
Qed.

(** X14 (one failing token fails the whole query). If the tokens before
    some token all pass validation and discovery and that token fails
    either step, the query fails with that token's error, whatever tokens
    follow it: nothing of the graph is returned. *)
Theorem useTokenRoutes_queryFn_fails (before after : list TokenMetadata)
    (token : TokenMetadata) (e : JsError) :
  Forall (fun t => validate t = Ok tt ∧ ∃ t', fetch t = Ok t') before →
  validate token = Throw e ∨ (validate token = Ok tt ∧ fetch token = Throw e) →
  query (before ++ token :: after) = Throw e.
Proof.
  intros Hbefore Hfail. unfold useTokenRoutes_queryFn.
  enough (∀ acc, forOf (before ++ token :: after) step acc = Throw e) as ->; [done|].
  induction Hbefore as [|t ts [Hv [t' Hf]] _ IH]; intros acc; simpl.
  - destruct Hfail as [-> | [-> ->]]; done.
  - rewrite Hv. simpl. rewrite Hf. simpl. apply IH.
Qed.
End QueryFacts.

Lemma fetchRemoteHypTokens_routers_witness :
  ∃ routers,
    exampleFactory chainA "0x1111" = Some (Ok routers) ∧
    tokenX6 = withHypTokens tokenX6config (hypTokens tokenX6) ∧
    Forall2 (fun (router : DomainId * Address) hypToken =>
               hyp_address hypToken = router.2 ∧
               ∃ chainId, Ok router.1 = Ok chainId ∧
                 hyp_caip2Id hypToken = exampleGetCaip2Id Ethereum chainId)
            routers (hypTokens tokenX6).
Proof.
  apply (fetchRemoteHypTokens_routers exampleFactory Ok exampleGetCaip2Id
           tokenX6config tokenX6).
  vm_compute. reflexivity.
Defined.

Lemma useTokenRoutes_queryFn_fails_witness :
  exampleQuery ([tokenX6config] ++ tokenX :: [tokenY])
  = Throw (Error "Token config decimals 18 does not match contract decimals 6").
Proof.
  apply (useTokenRoutes_queryFn_fails (fun _ _ => exampleErc20)
           (fun _ _ => exampleCollateral) (fun _ => exampleProvider)
           exampleFactory Ok exampleGetCaip2Id).
  - constructor; [|constructor]. split; [reflexivity|].
    exists tokenX6. vm_compute. reflexivity.
  - left. vm_compute. reflexivity.
Defined.

Lemma useTokenRoutes_queryFn_Ok_iff_witness :
  exampleQuery [tokenX6config] = Ok (built [tokenX6]).
Proof.
  apply (useTokenRoutes_queryFn_Ok_iff (fun _ _ => exampleErc20)
           (fun _ _ => exampleCollateral) (fun _ => exampleProvider)
           exampleFactory Ok exampleGetCaip2Id).
  exists [tokenX6]. split.
  - constructor; [|constructor]. split; vm_compute; reflexivity.
  - vm_compute. reflexivity.
Defined.

(** ** The EVM adapters, continued *)

Lemma promiseAll_Ok_exists {A B : Type} (f : A → Result B) (xs : list A) :
  (∃ ys, promiseAll f xs = Ok ys) ↔ Forall (fun x => ∃ y, f x = Ok y) xs.
Proof.
  induction xs as [|x xs IH]; simpl.
  - split; [constructor | by eexists].
  - split.
    + intros (ys & (y & Hy & (ys' & Hys & _)%Result_bind_eq_Ok)%Result_bind_eq_Ok).
      constructor; [eauto | apply IH; eauto].
    + intros [[y Hy] [ys Hys]%IH]%Forall_cons.
      rewrite Hy. simpl. rewrite Hys. simpl. eauto.
Qed.

Section EvmAdapterMore.
Variable bigNumberFrom : AmountOrId → Result Z.
Variable getHypErc20CollateralContract : Address → SignerOrProvider → Contract.
Variable bytes32ToAddress : string → Result Address.
Variable normalizeEvmAddress : Address → Result Address.

Local Abbreviation isRouterCapable :=
  (routerCapable getHypErc20CollateralContract bytes32ToAddress normalizeEvmAddress).
Local Abbreviation isEvmAdapter :=
  (evmAdapter bigNumberFrom getHypErc20CollateralContract bytes32ToAddress
     normalizeEvmAddress).

(** X16 (router listing is all or nothing). [getAllRouters] of a
    router-capable adapter returns a list exactly when the domain read
    succeeds and the router address of every listed domain resolves; a
    single domain that fails to resolve fails the whole call. *)
Theorem getAllRouters_Ok_iff (adapter : IHypTokenAdapter) :
  isRouterCapable adapter →
  (∃ entries, getAllRouters adapter = Ok entries) ↔
  ∃ domains, getDomains adapter = Ok domains ∧
    Forall (fun d => ∃ a, getRouterAddress adapter d = Ok a) domains.
Proof.
  assert (∀ sp a f,
            let adapter := EvmHypTokenAdapter bytes32ToAddress normalizeEvmAddress sp a f in
            (∃ entries, getAllRouters adapter = Ok entries) ↔
            ∃ domains, getDomains adapter = Ok domains ∧
              Forall (fun d => ∃ a, getRouterAddress adapter d = Ok a) domains) as Hhyp.
  { intros sp a f adapter'. unfold adapter'. simpl.
    destruct (c_domains (f a sp)) as [domains|e]; simpl.
    - split.
      + intros (entries & (routers & Hr & _)%Result_bind_eq_Ok).
        exists domains. split; [done|]. apply promiseAll_Ok_exists. eauto.
      + intros (? & [= <-] & [routers Hr]%promiseAll_Ok_exists).
        rewrite Hr. simpl. eauto.
    - split; [by intros [? ?] | by intros (? & ? & _)]. }
  intros [sp a f|sp a]; [apply Hhyp | apply (Hhyp sp a getHypErc20CollateralContract)].
Qed.

(** X17 (balance of no address). On each of the four EVM adapters,
    [getBalance] called without an address, or with the empty string, on a
    handle that is a provider and not a signer fails with "No address
    provided" before any balance is read; on a signer whose own address
    cannot be obtained it fails with the signer's error. *)
Theorem getBalance_no_address (signerOrProvider : SignerOrProvider)
    (adapter : ITokenAdapter) (address : option Address) :
  isEvmAdapter signerOrProvider adapter →
  truthy address = false →
  (sp_isSigner signerOrProvider = false →
   getBalance adapter address = Throw (Error "No address provided"))
  ∧ (∀ e, sp_isSigner signerOrProvider = true →
          sp_getAddress signerOrProvider = Throw e →
          getBalance adapter address = Throw e).
Proof.
  intros Hadapter Haddr.
  destruct Hadapter; simpl; unfold resolveAddress; rewrite Haddr;
    (split; [intros -> | intros e -> ->]); done.
Qed.

(** With an address given, the signer is not consulted: a token adapter
    reads the contract's [balanceOf] at that address and the native adapter
    the handle's own balance, rendered in decimal. *)
Lemma getBalance_of_address (signerOrProvider : SignerOrProvider)
    (a : Address) (f : Address → SignerOrProvider → Contract) (address : Address) :
  address ≠ ""%string →
  getBalance (EvmTokenAdapter signerOrProvider a f) (Some address)
  = (balance ← c_balanceOf (f a signerOrProvider) address; Ok (pretty balance))
  ∧ getBalance (EvmNativeTokenAdapter bigNumberFrom signerOrProvider) (Some address)
    = (balance ← sp_getBalance signerOrProvider address; Ok (pretty balance)).
Proof.
  intros Hne. simpl. unfold resolveAddress. simpl.
  by destruct (String.eqb_spec address "") as [->|_].
Qed.
End EvmAdapterMore.

Lemma getAllRouters_Ok_iff_witness :
  (∃ entries, getAllRouters exampleCollateralAdapter = Ok entries) ↔
  ∃ domains, getDomains exampleCollateralAdapter = Ok domains ∧
    Forall (fun d => ∃ a, getRouterAddress exampleCollateralAdapter d = Ok a) domains.
Proof.
  apply (getAllRouters_Ok_iff (fun _ _ => exampleCollateral) Ok Ok
           exampleCollateralAdapter).
  apply routerCapable_collateral.
Defined.

Lemma getBalance_no_address_witness :
  getBalance exampleCollateralAdapter (Some ""%string)
  = Throw (Error "No address provided").
Proof.
  destruct (getBalance_no_address (fun _ => Ok 0%Z) (fun _ _ => exampleCollateral)
              Ok Ok exampleProvider exampleCollateralAdapter (Some ""%string))
    as [Hprovider _].
  - apply evmAdapter_collateral.
  - reflexivity.
  - apply Hprovider. reflexivity.
Defined.

(** ** The Cosmos IBC adapter, continued *)

(** X18 (what a constructed adapter puts in its message). On an adapter
    returned by the constructor, [populateTransferTx] succeeds exactly when
    a non-empty sender is given, and fails with "fromAccountOwner is
    required for ibc transfers" otherwise. A message it returns is an IBC
    MsgTransfer whose source port, source channel and token denom are the
    adapter's properties, all present and non-empty; the sender and
    receiver are the given account owner and recipient, the amount is the
    given string, or the decimal digits of the given number when that is a
    safe integer (magnitude at most 2^53 - 1), and the memo is empty unless
    one is passed. *)
Theorem populateTransferTx_message (chain : string) (addrs : gmap string string)
    (props : CosmProperties) (adapter : CosmNativeTokenAdapter) (now : Z)
    (transferParams : TransferParams) (memo : option string) :
  newCosmNativeTokenAdapter chain addrs props = Ok adapter →
  (truthy (fromAccountOwner transferParams) = false →
   populateTransferTx now adapter transferParams memo
   = Throw (Error "fromAccountOwner is required for ibc transfers"))
  ∧ (truthy (fromAccountOwner transferParams) = true →
     ∃ m port channel ibc sender,
       populateTransferTx now adapter transferParams memo = Ok m ∧
       typeUrl m = "/ibc.applications.transfer.v1.MsgTransfer"%string ∧
       msg_sourcePort (value m) = Some port ∧ port ≠ ""%string ∧
       msg_sourceChannel (value m) = Some channel ∧ channel ≠ ""%string ∧
       denom (msg_token (value m)) = Some ibc ∧ ibc ≠ ""%string ∧
       sourcePort props = Some port ∧ sourceChannel props = Some channel ∧
       ibcDenom props = Some ibc ∧
       fromAccountOwner transferParams = Some sender ∧ sender ≠ ""%string ∧
       msg_sender (value m) = sender ∧
       msg_receiver (value m) = recipient transferParams ∧
       match weiAmountOrId transferParams with
       | AmountString s => amount (msg_token (value m)) = s
       | AmountNumber n =>
           (Z.abs n ≤ 9007199254740991)%Z → amount (msg_token (value m)) = pretty n
       end ∧
       msg_memo (value m) = default ""%string memo).
Proof.
  assert (∀ p : option string, truthy p = true → ∃ s, p = Some s ∧ s ≠ ""%string)
    as Hpresent.
  { intros [s|]; simpl; [|done]. intros Hs. exists s. split; [done|].
    intros ->. done. }
  unfold newCosmNativeTokenAdapter.
  destruct (truthy (ibcDenom props)) eqn:H1; [|done].
  destruct (truthy (sourcePort props)) eqn:H2; [|done].
  destruct (truthy (sourceChannel props)) eqn:H3; [|done].
  simpl. intros [= <-]. unfold populateTransferTx. split.
  - by intros ->.
  - intros Hsender. rewrite Hsender. simpl.
    destruct (Hpresent _ H1) as (ibc & Hibc & ?).
    destruct (Hpresent _ H2) as (port & Hport & ?).
    destruct (Hpresent _ H3) as (channel & Hchannel & ?).
    destruct (Hpresent _ Hsender) as (sender & Hs & ?).
    eexists _, port, channel, ibc, sender. split; [reflexivity|]. simpl.
    rewrite Hibc, Hport, Hchannel, Hs.
    split_and!; try done. by destruct (weiAmountOrId transferParams).
Qed.

Lemma populateTransferTx_message_witness :
  populateTransferTx 1700000000000 exampleCosmAdapter
    (mkTransferParams (AmountNumber 1000) "neutron1recipient" None) None
  = Throw (Error "fromAccountOwner is required for ibc transfers")
  ∧ ∃ m, populateTransferTx 1700000000000 exampleCosmAdapter exampleTransferParams None
         = Ok m ∧
         amount (msg_token (value m)) = "1000"%string ∧
         msg_sourceChannel (value m) = Some "channel-0"%string.
Proof.
  split.
  - destruct (populateTransferTx_message "neutron" ∅ exampleCosmProperties
                exampleCosmAdapter 1700000000000
                (mkTransferParams (AmountNumber 1000) "neutron1recipient" None) None)
      as [Hnone _]; [reflexivity|].
    apply Hnone. reflexivity.
  - destruct (populateTransferTx_message "neutron" ∅ exampleCosmProperties
                exampleCosmAdapter 1700000000000 exampleTransferParams None)
      as [_ Hsome]; [reflexivity|].
    destruct (Hsome eq_refl)
      as (m & port & channel & ibc & sender & Hm & _ & _ & _ & Hc & _ & _ & _ & _
          & Hchannel & _ & _ & _ & _ & _ & Hamount & _).
    exists m. split_and!; [exact Hm | |].
    + apply Hamount. simpl. lia.
    + rewrite Hc. rewrite <- Hchannel. reflexivity.
Defined.

(** X19 (the timeout past the 64-bit range). For a clock reading after the
    last representable one, as long as the nanosecond count stays below
    2^64, the multiplication wraps: the timeout the message carries is the
    intended nanosecond count minus 2^64, a negative number. *)
Theorem populateTransferTx_timeout_wraps (now : Z) (adapter : CosmNativeTokenAdapter)
    (transferParams : TransferParams) (memo : option string) :
  truthy (fromAccountOwner transferParams) = true →
  (lastRepresentableClock < now ≤ 18446744013709)%Z →
  ∃ m, populateTransferTx now adapter transferParams memo = Ok m ∧
       timeoutTimestamp (value m)
       = ((now + COSMOS_IBC_TRANSFER_TIMEOUT) * 1000000 - 2 ^ 64)%Z ∧
       (timeoutTimestamp (value m) < 0)%Z.
Proof.
  intros Hsender [Hlo Hhi]. unfold populateTransferTx. rewrite Hsender. simpl.
  eexists. split; [reflexivity|]. cbn [value timeoutTimestamp].
  unfold COSMOS_IBC_TRANSFER_TIMEOUT, lastRepresentableClock, Long_multiply in *.
  rewrite !Long_fromNumber_small by lia.
  unfold Long_wrap.
  change (2 ^ 63)%Z with 9223372036854775808%Z.
  change (2 ^ 64)%Z with 18446744073709551616%Z.
  assert (((now + 60000) * 1000000 + 9223372036854775808) mod 18446744073709551616
          = (now + 60000) * 1000000 + 9223372036854775808 - 18446744073709551616)%Z
    as ->.
  { symmetry. apply Z.mod_unique_pos with (q := 1%Z); lia. }
  lia.
Qed.

Lemma populateTransferTx_timeout_wraps_witness :
  ∃ m, populateTransferTx 9223371976855 exampleCosmAdapter exampleTransferParams None
       = Ok m ∧
       timeoutTimestamp (value m) = (-9223372036854551616)%Z ∧
       (timeoutTimestamp (value m) < 0)%Z.
Proof.
  apply (populateTransferTx_timeout_wraps 9223371976855 exampleCosmAdapter
           exampleTransferParams None).
  - reflexivity.
  - unfold lastRepresentableClock. lia.
Defined.

(** X20 (the composite adapter's message). [populateTransferTx] of the
    composite adapter first asks the intermediate chain's router adapter
    for the remote transfer: if that fails, the call fails with its error.
    Otherwise it needs a sender like the plain IBC transfer, and the
    message it returns is addressed to the intermediate router, not to the
    caller's recipient, carries the stringified contract call as its memo,
    and keeps the caller's sender and amount (the given string, or the
    decimal digits of a given safe integer, of magnitude at most
    2^53 - 1). *)
Theorem populateTransferTx_viaRouter_message {Msg Funds : Type}
    (populateTransferRemoteTx :
       string → string → Address → option string →
       TransferParams → DomainId → string → Result (ExecuteInstruction Msg Funds))
    (stringifyWasmMemo : Address → Msg → Funds → string)
    (now : Z) (adapter : CosmNativeToHypTokenAdapter)
    (transferParams : TransferParams) :
  let remote :=
    populateTransferRemoteTx (intermediateChainName adapter) (derivedIbcDenom adapter)
      (intermediateRouterAddress adapter) (ibcDenom (properties (super adapter)))
      transferParams (destinationDomainId adapter) "1" in
  let result :=
    populateTransferTx_viaRouter Msg Funds populateTransferRemoteTx stringifyWasmMemo
      now adapter transferParams in
  match remote with
  | Throw e => result = Throw e
  | Ok transfer =>
      if truthy (fromAccountOwner transferParams) then
        ∃ m, result = Ok m ∧
          msg_receiver (value m) = intermediateRouterAddress adapter ∧
          msg_memo (value m)
          = stringifyWasmMemo (contractAddress _ _ transfer) (msg _ _ transfer)
              (funds _ _ transfer) ∧
          Some (msg_sender (value m)) = fromAccountOwner transferParams ∧
          match weiAmountOrId transferParams with
          | AmountString s => amount (msg_token (value m)) = s
          | AmountNumber n =>
              (Z.abs n ≤ 9007199254740991)%Z → amount (msg_token (value m)) = pretty n
          end
      else result = Throw (Error "fromAccountOwner is required for ibc transfers")
  end.
Proof.
  intros remote result. unfold result, populateTransferTx_viaRouter. fold remote.
  destruct remote as [transfer|e]; simpl; [|done].
  unfold populateTransferTx. simpl.
  destruct (fromAccountOwner transferParams) as [sender|] eqn:Hs; simpl; [|done].
  destruct (String.eqb sender ""); simpl; [done|].
  eexists. split; [reflexivity|]. simpl.
  split_and!; try done. by destruct (weiAmountOrId transferParams).
Qed.
